(** * create_phase9.py: section extraction, issue parsing and submission

    A shallow embedding of [src/create_phase9.py].

    Text is a list of characters; a character is a code point below 256
    (the type [ascii]).  On that range the regular expression class [\d]
    is the ten decimal digits and [str.strip] removes the code points
    9-13, 28-32, 133 and 160.

    The regular expression of [main] is kept as a syntax tree and run by
    a backtracking matcher with the priorities of Python's [re] module:
    greedy and lazy repetition, alternation left to right, capturing
    groups, lookahead, and [$] without [re.MULTILINE].

    The file, the standard output and the HTTP endpoint are the
    environment: [main] runs in a state monad whose state is the external
    world and the sequence of observable events. *)

From Stdlib Require Import Ascii String List ZArith Lia Bool Arith.
From Stdlib Require Import DecimalString.
From Stdlib Require DecimalFacts DecimalNat.
Import ListNotations.

Set Implicit Arguments.
Set Warnings "-register-all".

(** ** Text *)

Definition text := list ascii.

Definition txt (s : string) : text := list_ascii_of_string s.
Arguments txt s%_string.

Definition newline : ascii := "010"%char.

(** [s.startswith(p)] *)
Fixpoint startswith (p s : text) : bool :=
  match p, s with
  | [], _ => true
  | _ :: _, [] => false
  | a :: p', b :: s' => Ascii.eqb a b && startswith p' s'
  end.

(** [s.find(sub)]: the lowest index at which [sub] occurs, or -1. *)
Fixpoint find_from (i : Z) (s sub : text) : Z :=
  if startswith sub s then i
  else match s with
       | [] => (-1)%Z
       | _ :: s' => find_from (i + 1) s' sub
       end.

Definition find (s sub : text) : Z := find_from 0 s sub.

(** [s[i:]], with Python's reading of a negative index. *)
Definition slice_from (s : text) (i : Z) : text :=
  if (i <? 0)%Z
  then skipn (Z.to_nat (Z.max 0 (Z.of_nat (length s) + i))) s
  else skipn (Z.to_nat i) s.

(** [str.isspace] on one character. *)
Definition isspace (c : ascii) : bool :=
  let n := nat_of_ascii c in
  ((9 <=? n) && (n <=? 13)) || ((28 <=? n) && (n <=? 32))
  || (n =? 133) || (n =? 160).

Fixpoint lstrip (s : text) : text :=
  match s with
  | c :: s' => if isspace c then lstrip s' else s
  | [] => []
  end.

Definition rstrip (s : text) : text := rev (lstrip (rev s)).

(** [s.strip()] *)
Definition strip (s : text) : text := rstrip (lstrip s).

(** [str(n)] for a length. *)
Definition str_of_nat (n : nat) : text :=
  txt (NilEmpty.string_of_uint (Nat.to_uint n)).

(** The number that a text of decimal digits writes. *)
Definition digit_value (c : ascii) : nat := nat_of_ascii c - 48.

Definition decimal_value (s : text) : nat :=
  fold_left (fun acc c => 10 * acc + digit_value c) s 0.

(** ** Regular expressions *)

Module Re.

(** Character classes: [\d], and [.] under [re.DOTALL]. *)
Inductive cclass := Digit | Dot.

Definition isdigit (c : ascii) : bool :=
  let n := nat_of_ascii c in (48 <=? n) && (n <=? 57).

Definition in_class (k : cclass) (c : ascii) : bool :=
  match k with
  | Digit => isdigit c
  | Dot => true
  end.

Inductive mode := Greedy | Lazy.

(** The constructs the program's pattern is written with.  Repetition is
    [k+] or [k+?] of a character class. *)
Inductive regex :=
| Lit (s : text)
| Plus (m : mode) (k : cclass)
| Group (n : nat) (r : regex)
| Cat (r1 r2 : regex)
| Alt (r1 r2 : regex)
| Ahead (r : regex)
| Eos.

(** Captured groups, most recent first. *)
Definition caps := list (nat * text).

Fixpoint group (n : nat) (g : caps) : text :=
  match g with
  | [] => []
  | (m, v) :: g' => if Nat.eqb m n then v else group n g'
  end.

(** The text between two positions, each given by what is left to read. *)
Definition consumed (s s' : text) : text :=
  firstn (length s - length s') s.

Section Matcher.

Variable A : Type.

(** [k+?]: the shortest repetition first. *)
Fixpoint plus_lazy (p : ascii -> bool) (s : text)
    (k : text -> option A) : option A :=
  match s with
  | c :: s' =>
      if p c then
        match k s' with
        | Some x => Some x
        | None => plus_lazy p s' k
        end
      else None
  | [] => None
  end.

(** [k+]: the longest repetition first. *)
Fixpoint plus_greedy (p : ascii -> bool) (s : text)
    (k : text -> option A) : option A :=
  match s with
  | c :: s' =>
      if p c then
        match plus_greedy p s' k with
        | Some x => Some x
        | None => k s'
        end
      else None
  | [] => None
  end.

End Matcher.

(** A match result: what is left of the subject, and the groups. *)
Definition result := (text * caps)%type.

(** The continuation that ends a match. *)
Definition accept (s : text) (g : caps) : option result := Some (s, g).

(** Backtracking match of [r] at the head of [s], then the continuation
    [k]; [None] is failure, which makes the caller try its next choice. *)
Fixpoint rmatch (r : regex) (s : text) (g : caps)
    (k : text -> caps -> option result) : option result :=
  match r with
  | Lit l =>
      if startswith l s then k (skipn (length l) s) g else None
  | Plus Lazy c => plus_lazy (in_class c) s (fun s' => k s' g)
  | Plus Greedy c => plus_greedy (in_class c) s (fun s' => k s' g)
  | Group n r1 =>
      rmatch r1 s g (fun s' g' => k s' ((n, consumed s s') :: g'))
  | Cat r1 r2 =>
      rmatch r1 s g (fun s' g' => rmatch r2 s' g' k)
  | Alt r1 r2 =>
      match rmatch r1 s g k with
      | Some x => Some x
      | None => rmatch r2 s g k
      end
  | Ahead r1 =>
      match rmatch r1 s g accept with
      | Some (_, g') => k s g'
      | None => None
      end
  | Eos =>
      match s with
      | [] => k s g
      | [c] => if Ascii.eqb c newline then k s g else None
      | _ => None
      end
  end.

(** [pattern.match] at the current position. *)
Definition match_here (r : regex) (s : text) : option result :=
  rmatch r s [] accept.

(** [pattern.search]: the leftmost position at which the pattern matches. *)
Fixpoint search (r : regex) (s : text) : option result :=
  match match_here r s with
  | Some x => Some x
  | None =>
      match s with
      | [] => None
      | _ :: s' => search r s'
      end
  end.

(** The scan of [findall]: after a match the search resumes where the
    match ended, one character further after an empty match. *)
Fixpoint scan (fuel : nat) (r : regex) (s : text) : list caps :=
  match fuel with
  | 0 => []
  | S fuel' =>
      match search r s with
      | None => []
      | Some (s', g) =>
          g :: (if length s' <? length s then scan fuel' r s'
                else match s' with
                     | [] => []
                     | _ :: s'' => scan fuel' r s''
                     end)
      end
  end.

(** [pattern.findall(s)] for a pattern with three groups. *)
Definition findall (r : regex) (s : text) : list (text * text * text) :=
  map (fun g => (group 1 g, group 2 g, group 3 g))
      (scan (S (length s)) r s).

End Re.

Import Re.

Infix "@@" := Cat (at level 60, right associativity).

(** [r"#### (\d+)\. (.+?)\n(.+?)(?=\n#### \d+|$)"], compiled with
    [re.DOTALL]. *)
Definition issue_pattern : regex :=
  Lit (txt "#### ") @@ Group 1 (Plus Greedy Digit) @@ Lit (txt ". ")
  @@ Group 2 (Plus Lazy Dot) @@ Lit [newline]
  @@ Group 3 (Plus Lazy Dot)
  @@ Ahead (Alt (Lit (newline :: txt "#### ") @@ Plus Greedy Digit) Eos).

(** ** The program *)

(** The value passed to [json.dumps]. *)
Inductive json :=
| JString (s : text)
| JArray (items : list json)
| JObject (fields : list (text * json)).

(** A [urllib.request.Request]: the URL, the payload handed to
    [json.dumps], and the [add_header] calls in order. *)
Record request := {
  url : text;
  data : json;
  headers : list (text * text)
}.

(** What [urllib.request.urlopen] does with a request: it raises for a
    transport failure or for a status that is not a success, and
    otherwise yields a response whose content is [body]. *)
Inductive http_result :=
| URLError (reason : text)
| HTTPError (reason : text)
| Response (body : text).

(** What the run does that can be seen from outside. *)
Inductive event :=
| Print (line : text)
| Urlopen (req : request).

Definition REPO : text := txt "dotandev/hintents".

Section Program.

(** The tracker and the network. *)
Variable World : Type.
Variable urlopen : World -> request -> World * http_result.

(** [json.loads(response.read().decode())['number']] formatted, or the
    text of the exception that reading, decoding or indexing raises. *)
Variable read_number : text -> text + text.

(** [os.getenv("GITHUB_TOKEN")] *)
Variable TOKEN : option text.

Record state := {
  world : World;
  events : list event
}.

Definition M (A : Type) : Type := state -> A * state.

Definition ret {A} (a : A) : M A := fun st => (a, st).

Definition bind {A B} (c : M A) (k : A -> M B) : M B :=
  fun st => let (a, st') := c st in k a st'.

Notation "x <- c ;; k" := (bind c (fun x => k))
  (at level 61, c at next level, right associativity).
Notation "c ;;; k" := (bind c (fun _ => k))
  (at level 61, right associativity).

Definition print (line : text) : M unit :=
  fun st => (tt, {| world := world st;
                    events := events st ++ [Print line] |}).

Definition call_urlopen (req : request) : M http_result :=
  fun st => let (w, r) := urlopen (world st) req in
            (r, {| world := w; events := events st ++ [Urlopen req] |}).

(** [f"token {TOKEN}"] *)
Definition authorization : text :=
  txt "token " ++ match TOKEN with
                  | Some t => t
                  | None => txt "None"
                  end.

Definition payload (title body : text) : json :=
  JObject [ (txt "title", JString title);
            (txt "body", JString body);
            (txt "labels", JArray [JString (txt "new_for_wave")]) ].

Definition issue_request (title body : text) : request :=
  {| url := txt "https://api.github.com/repos/" ++ REPO ++ txt "/issues";
     data := payload title body;
     headers := [ (txt "Authorization", authorization);
                  (txt "Content-Type", txt "application/json");
                  (txt "Accept", txt "application/vnd.github.v3+json") ] |}.

Definition created_line (number title : text) : text :=
  txt "Created issue #" ++ number ++ txt ": " ++ title.

Definition failed_line (title e : text) : text :=
  txt "Failed to create issue " ++ title ++ txt ": " ++ e.

(** [create_issue].  The value it returns is given as [str] formats it:
    that of [res_data['number']] when the response was read, which is
    [None] for a number that is null, and [None] after any exception
    raised inside the [try]. *)
Definition create_issue (title body : text) : M text :=
  r <- call_urlopen (issue_request title body) ;;
  match r with
  | Response content =>
      match read_number content with
      | inr number => print (created_line number title) ;;; ret number
      | inl e => print (failed_line title e) ;;; ret (txt "None")
      end
  | URLError e => print (failed_line title e) ;;; ret (txt "None")
  | HTTPError e => print (failed_line title e) ;;; ret (txt "None")
  end.

Definition full_title (num title : text) : text :=
  num ++ txt ". " ++ strip title.

(** The [for] loop of [main]. *)
Fixpoint submit_all (matches : list (text * text * text)) : M unit :=
  match matches with
  | [] => ret tt
  | (num, title, body) :: matches' =>
      create_issue (full_title num title) (strip body) ;;;
      submit_all matches'
  end.

Definition marker : text := txt "### Phase 9".

Definition found_line (n : nat) : text :=
  txt "Found " ++ str_of_nat n ++ txt " issues to create for Phase 9.".

(** [main], from the point where the file has been read into [content]. *)
Definition main (content : text) : M unit :=
  let phase9_start := find content marker in
  if (phase9_start =? -1)%Z then print (txt "Phase 9 not found")
  else
    let phase9_content := slice_from content phase9_start in
    let matches := findall issue_pattern phase9_content in
    print (found_line (length matches)) ;;;
    submit_all matches.

End Program.

(** ** Vocabulary of the statements *)

(** [sub] occurs in [s]. *)
Definition occurs (sub s : text) : Prop :=
  exists a b, s = a ++ sub ++ b.

(** A non-empty run of decimal digits. *)
Definition number (s : text) : Prop :=
  s <> [] /\ forallb isdigit s = true.

(** What may follow a body: a line break, [#### ] and a digit; the end of
    the input; or one line break that ends the input. *)
Definition boundary (r : text) : Prop :=
  (exists d r', isdigit d = true /\ r = newline :: txt "#### " ++ d :: r')
  \/ r = [] \/ r = [newline].

(** The parts of [issue_pattern], from its end. *)
Definition lookahead : regex :=
  Alt (Lit (newline :: txt "#### ") @@ Plus Greedy Digit) Eos.

Definition body_part : regex :=
  Group 3 (Plus Lazy Dot) @@ Ahead lookahead.

Definition title_part : regex :=
  Group 2 (Plus Lazy Dot) @@ Lit [newline] @@ body_part.

Definition number_part : regex :=
  Group 1 (Plus Greedy Digit) @@ Lit (txt ". ") @@ title_part.

(** A heading is recognized at the head of [s]. *)
Definition heading_at (s : text) : Prop :=
  exists num title c rest,
    number num /\ title <> [] /\
    s = txt "#### " ++ num ++ txt ". " ++ title ++ newline :: c :: rest.

(** [body] is the shortest non-empty text that a boundary follows. *)
Definition shortest_body (body rest : text) : Prop :=
  body <> [] /\ boundary rest /\
  forall b1 b2, body = b1 ++ b2 -> b1 <> [] -> b2 <> [] ->
                ~ boundary (b2 ++ rest).

(** The shape of the text on which the pattern matches, with what the
    three groups hold and what is left after the match. *)
Definition issue_form (s num title body rest : text) : Prop :=
  s = txt "#### " ++ num ++ txt ". " ++ title ++ newline :: body ++ rest
  /\ number num
  /\ (exists c t, title = c :: t /\ ~ In newline t)
  /\ shortest_body body rest.

(** One heading line with its body, as it stands in a document. *)
Definition block (e : text * text * text) : text :=
  let '(num, title, body) := e in
  txt "#### " ++ num ++ txt ". " ++ title ++ newline :: body.

(** Blocks one after the other, each on a line of its own. *)
Fixpoint blocks (es : list (text * text * text)) : text :=
  match es with
  | [] => []
  | [e] => block e
  | e :: es' => block e ++ newline :: blocks es'
  end.

(** After its first character, [body] has no line break that [#### ]
    and a digit follow. *)
Definition no_inner_boundary (body : text) : Prop :=
  forall b1 d b2, b1 <> [] -> isdigit d = true ->
    body <> b1 ++ newline :: txt "#### " ++ d :: b2.

(** An entry that a block presents as it is. *)
Definition entry_ok (e : text * text * text) : Prop :=
  let '(num, title, body) := e in
  number num /\ title <> [] /\ ~ In newline title /\
  body <> [] /\ no_inner_boundary body.

(** What follows the last block: one line break, or nothing, and then
    the last body does not end with a line break that it has besides
    other characters. *)
Definition clean_end (es : list (text * text * text)) (trail : text) : Prop :=
  trail = [newline] \/
  (trail = [] /\
   forall es0 num title b,
     es = es0 ++ [(num, title, b ++ [newline])] -> b = []).

(** [t] is [s] without its leading and trailing white space. *)
Definition trimmed (s t : text) : Prop :=
  (exists l r, s = l ++ t ++ r
               /\ forallb isspace l = true /\ forallb isspace r = true)
  /\ (forall c t', t = c :: t' -> isspace c = false)
  /\ (forall c t', t = t' ++ [c] -> isspace c = false).

(** Lines 37-42 of [main]: the text from the marker on, or [None] where
    [main] returns early. *)
Definition phase9_section (content : text) : option text :=
  let phase9_start := find content marker in
  if (phase9_start =? -1)%Z then None
  else Some (slice_from content phase9_start).

(** The matches that [main] iterates over. *)
Definition entries (content : text) : list (text * text * text) :=
  match phase9_section content with
  | Some phase9_content => findall issue_pattern phase9_content
  | None => []
  end.

(** No heading is recognized at a position of [pre] when [s] follows. *)
Definition quiet (pre s : text) : bool :=
  forallb (fun n => match match_here issue_pattern (skipn n pre ++ s) with
                    | Some _ => false
                    | None => true
                    end)
          (seq 0 (length pre)).

Section Observations.

Variable World : Type.
Variable urlopen : World -> request -> World * http_result.
Variable read_number : text -> text + text.
Variable TOKEN : option text.

(** A run of [main] from a world in which nothing has happened yet. *)
Definition run (content : text) (w : World) : state World :=
  snd (main urlopen read_number TOKEN content {| world := w; events := [] |}).

(** The request that the loop of [main] sends for a match. *)
Definition request_of (e : text * text * text) : request :=
  let '(num, title, body) := e in
  issue_request TOKEN (full_title num title) (strip body).

(** The line that [create_issue] prints for a title after [urlopen]
    has given [r]. *)
Definition outcome_line (title : text) (r : http_result) : text :=
  match r with
  | Response content =>
      match read_number content with
      | inr number => created_line number title
      | inl e => failed_line title e
      end
  | URLError e => failed_line title e
  | HTTPError e => failed_line title e
  end.

(** What [urlopen] gives for a sequence of requests sent one after the
    other, starting in the world [w]. *)
Fixpoint replies (w : World) (reqs : list request) : list http_result :=
  match reqs with
  | [] => []
  | q :: reqs' => let (w', r) := urlopen w q in r :: replies w' reqs'
  end.

(** One submission attempt as seen from outside: the request, then the
    line about its outcome. *)
Definition attempt (er : (text * text * text) * http_result) : list event :=
  let '((num, title, body), r) := er in
  [ Urlopen (request_of (num, title, body));
    Print (outcome_line (full_title num title) r) ].

End Observations.

(** What every match of the pattern holds in its three groups. *)
Definition entry_parsed (e : text * text * text) : Prop :=
  let '(num, title, body) := e in
  number num /\ (exists c t, title = c :: t /\ ~ In newline t) /\
  body <> [] /\ no_inner_boundary body.

(** The entries of a text, told without the matcher: the leftmost
    position at which a heading is recognized gives the first entry, and
    the others are those of the text left after its body. *)
Inductive parses : text -> list (text * text * text) -> Prop :=
| parses_done s :
    (forall a b, s = a ++ b -> ~ heading_at b) ->
    parses s []
| parses_entry pre s num title body rest es :
    (forall a b, pre = a ++ b -> b <> [] -> ~ heading_at (b ++ s)) ->
    issue_form s num title body rest ->
    parses rest es ->
    parses (pre ++ s) ((num, title, body) :: es).

(** What [create_issue] returns after [urlopen] has given [r], as [str]
    formats it. *)
Definition issue_number (read_number : text -> text + text)
    (r : http_result) : text :=
  match r with
  | Response content =>
      match read_number content with
      | inr number => number
      | inl _ => txt "None"
      end
  | URLError _ => txt "None"
  | HTTPError _ => txt "None"
  end.

(** The groups that [findall] returns for one match. *)
Definition groups3 (g : caps) : text * text * text :=
  (group 1 g, group 2 g, group 3 g).

(** ** Sample inputs *)

Definition sample_entries : list (text * text * text) :=
  [ (txt "1", txt "First Task", txt "Do the first thing.");
    (txt "2", txt "Second Task", txt "Do the second thing.");
    (txt "3", txt "Third Task", txt "Do the third thing.") ].

Definition sample_section : text :=
  txt "### Phase 9" ++ newline :: blocks sample_entries ++ [newline].

Definition sample_document : text :=
  txt "# Plan" ++ newline :: sample_section.

(** A document with an issue before the marker. *)
Definition early_prefix : text :=
  block (txt "0", txt "Early", txt "Not in Phase 9.") ++ [newline].

Definition early_suffix : text :=
  newline :: block (txt "1", txt "A", txt "x").

(** The text between the two headings of [cut_section]. *)
Definition cut_between : text :=
  txt "foo" ++ newline :: txt "#### 12" ++ newline :: txt "bar".

Definition cut_section : text :=
  blocks [ (txt "1", txt "A", cut_between); (txt "2", txt "B", txt "baz") ].

(** A tracker that numbers the issues it creates, and whose second
    request fails in transport. *)
Definition sample_urlopen (w : nat) (q : request) : nat * http_result :=
  if w =? 1 then (S w, URLError (txt "timed out"))
  else (S w, Response (str_of_nat (S w))).

Definition sample_read_number (content : text) : text + text :=
  inr content.

(** The requests sent during a run, in order. *)
Fixpoint requests (evs : list event) : list request :=
  match evs with
  | [] => []
  | Urlopen req :: evs' => req :: requests evs'
  | Print _ :: evs' => requests evs'
  end.

(** The lines printed during a run, in order. *)
Fixpoint printed (evs : list event) : list text :=
  match evs with
  | [] => []
  | Print line :: evs' => line :: printed evs'
  | Urlopen _ :: evs' => printed evs'
  end.

(** ** Texts *)

Lemma startswith_app (l r : text) : startswith l (l ++ r) = true.
Proof.
  induction l as [|a l IH]; simpl; [reflexivity|].
  rewrite Ascii.eqb_refl. exact IH.
Qed.

Lemma startswith_cons (a b : ascii) (p s : text) :
  startswith (a :: p) (b :: s) = Ascii.eqb a b && startswith p s.
Proof. reflexivity. Qed.

Lemma startswith_inv (l s : text) :
  startswith l s = true -> s = l ++ skipn (length l) s.
Proof.
  revert s. induction l as [|a l IH]; intros s H; simpl in *.
  - reflexivity.
  - destruct s as [|b s]; [discriminate|].
    apply andb_true_iff in H. destruct H as [Hab Hl].
    apply Ascii.eqb_eq in Hab. subst b.
    simpl. f_equal. apply IH. exact Hl.
Qed.

Lemma startswith_iff (l s : text) :
  startswith l s = true <-> exists r, s = l ++ r.
Proof.
  split.
  - intros H. eexists. apply startswith_inv. exact H.
  - intros [r ->]. apply startswith_app.
Qed.

Lemma skipn_app_exact (l r : text) : skipn (length l) (l ++ r) = r.
Proof. induction l; simpl; auto. Qed.

Lemma consumed_app (a b : text) : consumed (a ++ b) b = a.
Proof.
  unfold consumed. rewrite length_app.
  replace (length a + length b - length b) with (length a) by lia.
  rewrite firstn_app, firstn_all, Nat.sub_diag. simpl.
  apply app_nil_r.
Qed.

Lemma digit_not_dot (c : ascii) : isdigit c = true -> c <> "."%char.
Proof. intros H ->. discriminate H. Qed.

Lemma digit_not_newline (c : ascii) : isdigit c = true -> c <> newline.
Proof. intros H ->. discriminate H. Qed.

(** ** Repetition *)

Section Repetition.

Variable A : Type.
Implicit Types (k : text -> option A) (s : text).

(** [.+?] under DOTALL takes the shortest non-empty prefix after which
    the rest of the pattern succeeds. *)
Lemma plus_lazy_dot_some k s x :
  plus_lazy (in_class Dot) s k = Some x <->
  exists a b, a <> [] /\ s = a ++ b /\ k b = Some x /\
    forall a1 a2, a = a1 ++ a2 -> a1 <> [] -> a2 <> [] ->
                  k (a2 ++ b) = None.
Proof.
  revert x. induction s as [|c s IH]; intros x; simpl.
  - split; [discriminate|].
    intros (a & b & Ha & E & _). destruct a; [congruence|discriminate].
  - destruct (k s) as [y|] eqn:Ek.
    + split.
      * intros E. injection E as <-. exists [c], s.
        repeat split; try easy.
        intros a1 a2 E1 H1 H2. exfalso.
        destruct a1 as [|u a1]; [congruence|].
        destruct a1; destruct a2; simpl in E1; congruence.
      * intros (a & b & Ha & E & Hk & Hmin).
        destruct a as [|u a]; [congruence|].
        simpl in E. injection E as <- ->.
        destruct a as [|v a].
        { simpl in Ek. congruence. }
        specialize (Hmin [c] (v :: a) eq_refl).
        rewrite Hmin in Ek; [discriminate|easy|easy].
    + rewrite IH. split.
      * intros (a & b & Ha & -> & Hk & Hmin).
        exists (c :: a), b. repeat split; try easy.
        intros a1 a2 E1 H1 H2.
        destruct a1 as [|u a1]; [congruence|].
        simpl in E1. injection E1 as <- ->.
        destruct a1 as [|v a1]; [exact Ek|].
        apply (Hmin (v :: a1) a2); easy.
      * intros (a & b & Ha & E & Hk & Hmin).
        destruct a as [|u a]; [congruence|].
        simpl in E. injection E as <- ->.
        destruct a as [|v a]; [simpl in Ek; congruence|].
        exists (v :: a), b. repeat split; try easy.
        intros a1 a2 E1 H1 H2.
        apply (Hmin (c :: a1) a2); try easy.
        simpl. now rewrite E1.
Qed.

(** [p+] followed by something that cannot begin with a [p]: the whole
    run of [p] is taken. *)
Lemma plus_greedy_some p k s x :
  (forall c b, p c = true -> k (c :: b) = None) ->
  plus_greedy p s k = Some x <->
  exists a b, a <> [] /\ forallb p a = true /\ s = a ++ b /\ k b = Some x.
Proof.
  intros Hk. revert x. induction s as [|c s IH]; intros x; simpl.
  - split; [discriminate|].
    intros (a & b & Ha & _ & E & _). destruct a; [congruence|discriminate].
  - destruct (p c) eqn:Epc.
    + destruct (plus_greedy p s k) as [y|] eqn:Eg.
      * split.
        { intros E. injection E as <-.
          destruct (proj1 (IH y) eq_refl) as (a & b & Ha & Hp & -> & Hb).
          exists (c :: a), b. repeat split; try easy.
          simpl. now rewrite Epc. }
        { intros (a & b & Ha & Hp & E & Hb).
          destruct a as [|u a]; [congruence|].
          simpl in E. injection E as <- ->.
          simpl in Hp. apply andb_true_iff in Hp. destruct Hp as [_ Hp].
          destruct a as [|v a].
          - destruct (proj1 (IH y) eq_refl)
              as (a' & b' & Ha' & Hp' & E' & _).
            destruct a' as [|w a']; [congruence|].
            simpl in Hp'. apply andb_true_iff in Hp'.
            destruct Hp' as [Hw _].
            simpl in E'. rewrite E' in Hb. simpl in Hb.
            rewrite Hk in Hb by exact Hw. discriminate.
          - apply (proj2 (IH x)).
            exists (v :: a), b. repeat split; easy. }
      * split.
        { intros E. exists [c], s. repeat split; try easy.
          simpl. now rewrite Epc. }
        { intros (a & b & Ha & Hp & E & Hb).
          destruct a as [|u a]; [congruence|].
          simpl in E. injection E as <- ->.
          simpl in Hp. apply andb_true_iff in Hp. destruct Hp as [_ Hp].
          destruct a as [|v a]; [exact Hb|].
          assert (E2 : @None A = Some x); [|discriminate E2].
          apply (proj2 (IH x)).
          exists (v :: a), b. repeat split; easy. }
    + split; [discriminate|].
      intros (a & b & Ha & Hp & E & _).
      destruct a as [|u a]; [congruence|].
      simpl in E. injection E as <- ->.
      simpl in Hp. rewrite Epc in Hp. discriminate.
Qed.

(** [p+] at the end of a pattern succeeds exactly on a text that begins
    with a [p]. *)
Lemma plus_greedy_last p (f : text -> A) s :
  (exists c s', s = c :: s' /\ p c = true /\
     exists r, plus_greedy p s (fun s' => Some (f s')) = Some (f r))
  \/ (plus_greedy p s (fun s' => Some (f s')) = None /\
      forall c s', s = c :: s' -> p c = false).
Proof.
  induction s as [|c s IH]; simpl.
  - right. split; [reflexivity|discriminate].
  - destruct (p c) eqn:Epc.
    + left. exists c, s. repeat split; try easy.
      destruct IH as [(c' & s' & -> & Hc' & r & ->)|[-> _]].
      * now exists r.
      * now exists s.
    + right. split; [reflexivity|].
      intros c' s' E. injection E as <- <-. exact Epc.
Qed.

End Repetition.

(** ** The pattern, part by part *)

Ltac pieces :=
  repeat match goal with |- _ /\ _ => split end;
  try reflexivity; try assumption.

Lemma issue_pattern_parts :
  issue_pattern = Lit (txt "#### ") @@ number_part.
Proof. reflexivity. Qed.

Lemma rmatch_lit_cat l r s g k :
  rmatch (Lit l @@ r) s g k =
  if startswith l s then rmatch r (skipn (length l) s) g k else None.
Proof. reflexivity. Qed.

Lemma body_part_eq s g k :
  rmatch body_part s g k =
  plus_lazy (in_class Dot) s
    (fun s' => rmatch (Ahead lookahead) s' ((3, consumed s s') :: g) k).
Proof. reflexivity. Qed.

Lemma title_part_eq s g k :
  rmatch title_part s g k =
  plus_lazy (in_class Dot) s
    (fun s' => rmatch (Lit [newline] @@ body_part) s'
                      ((2, consumed s s') :: g) k).
Proof. reflexivity. Qed.

Lemma number_part_eq s g k :
  rmatch number_part s g k =
  plus_greedy (in_class Digit) s
    (fun s' => rmatch (Lit (txt ". ") @@ title_part) s'
                      ((1, consumed s s') :: g) k).
Proof. reflexivity. Qed.

Lemma lookahead_eq s g :
  rmatch lookahead s g accept =
  match (if startswith (newline :: txt "#### ") s
         then plus_greedy (in_class Digit) (skipn 6 s)
                (fun s' => Some (s', g))
         else None) with
  | Some x => Some x
  | None => rmatch Eos s g accept
  end.
Proof. reflexivity. Qed.

(** The lookahead accepts exactly a boundary, and captures nothing. *)
Lemma lookahead_some s g :
  boundary s -> exists s', rmatch lookahead s g accept = Some (s', g).
Proof.
  intros [(d & r & Hd & ->)|[->| ->]].
  - rewrite lookahead_eq.
    change (newline :: txt "#### " ++ d :: r)
      with ((newline :: txt "#### ") ++ d :: r).
    rewrite startswith_app.
    change 6 with (length (newline :: txt "#### ")).
    rewrite skipn_app_exact.
    destruct (plus_greedy_last (in_class Digit) (fun s' => (s', g)) (d :: r))
      as [(c & s' & E & Hc & r' & ->)|[_ Hno]].
    + now exists r'.
    + specialize (Hno d r eq_refl). simpl in Hno. congruence.
  - now exists [].
  - now exists [newline].
Qed.

Lemma lookahead_inv s g x :
  rmatch lookahead s g accept = Some x -> boundary s /\ snd x = g.
Proof.
  rewrite lookahead_eq.
  destruct (startswith (newline :: txt "#### ") s) eqn:Es.
  - apply startswith_inv in Es. remember (skipn _ s) as s1 eqn:E1.
    clear E1.
    destruct (plus_greedy_last (in_class Digit) (fun s' => (s', g)) s1)
      as [(c & s' & E & Hc & r' & Hr)|[Hn Hno]].
    + rewrite Hr. intros H. injection H as <-. split; [|reflexivity].
      left. exists c, s'. split; [exact Hc|]. rewrite Es, E. reflexivity.
    + rewrite Hn. rewrite Es. simpl.
      destruct s1 as [|c s1]; simpl; discriminate.
  - destruct s as [|c [|c' s]]; simpl.
    + intros H. injection H as <-. split; [right; now left|reflexivity].
    + destruct (Ascii.eqb c newline) eqn:Ec; [|discriminate].
      apply Ascii.eqb_eq in Ec. subst c.
      intros H. injection H as <-. split; [right; now right|reflexivity].
    + discriminate.
Qed.

Lemma ahead_some s g x :
  rmatch (Ahead lookahead) s g accept = Some x <-> boundary s /\ x = (s, g).
Proof.
  change (rmatch (Ahead lookahead) s g accept)
    with (match rmatch lookahead s g accept with
          | Some (_, g') => accept s g'
          | None => None
          end).
  split.
  - destruct (rmatch lookahead s g accept) as [[s' g']|] eqn:E;
      [|discriminate].
    apply lookahead_inv in E. destruct E as [Hb Hg]. simpl in Hg. subst g'.
    intros H. injection H as <-. now split.
  - intros [Hb ->]. destruct (lookahead_some g Hb) as [s' ->]. reflexivity.
Qed.

Lemma ahead_none s g :
  rmatch (Ahead lookahead) s g accept = None <-> ~ boundary s.
Proof.
  split.
  - intros E Hb.
    assert (H : rmatch (Ahead lookahead) s g accept = Some (s, g))
      by now apply ahead_some.
    congruence.
  - intros Hn.
    destruct (rmatch (Ahead lookahead) s g accept) as [x|] eqn:E;
      [|reflexivity].
    apply ahead_some in E. tauto.
Qed.

Lemma plus_lazy_dot_total (A : Type) (k : text -> option A) (s : text) :
  s <> [] -> k [] <> None -> plus_lazy (in_class Dot) s k <> None.
Proof.
  intros Hs Hk. destruct s as [|c s]; [congruence|]. clear Hs.
  revert c. induction s as [|c' s IH]; intros c; simpl.
  - destruct (k []); [discriminate|congruence].
  - destruct (k (c' :: s)); [discriminate|]. apply (IH c').
Qed.

(** Group 3 and the lookahead. *)
Lemma body_part_some s g x :
  rmatch body_part s g accept = Some x <->
  exists body rest,
    s = body ++ rest /\ shortest_body body rest /\
    x = (rest, (3, body) :: g).
Proof.
  rewrite body_part_eq, plus_lazy_dot_some. split.
  - intros (a & b & Ha & -> & Hk & Hmin).
    apply ahead_some in Hk. destruct Hk as [Hb ->].
    rewrite consumed_app.
    exists a, b. repeat split; try easy.
    intros b1 b2 E H1 H2. eapply ahead_none.
    eapply Hmin; eassumption.
  - intros (body & rest & -> & (Hne & Hb & Hmin) & ->).
    exists body, rest. repeat split; try easy.
    + apply ahead_some. rewrite consumed_app. now split.
    + intros a1 a2 E H1 H2. apply ahead_none.
      eapply Hmin; eassumption.
Qed.

Lemma body_part_total s g :
  s <> [] -> rmatch body_part s g accept <> None.
Proof.
  intros Hs. rewrite body_part_eq.
  apply plus_lazy_dot_total; [exact Hs|].
  intros E. apply ahead_none in E. apply E. right. now left.
Qed.

Lemma newline_body_eq s g k :
  rmatch (Lit [newline] @@ body_part) (newline :: s) g k =
  rmatch body_part s g k.
Proof. reflexivity. Qed.

Lemma newline_body_none c s g k :
  c <> newline -> rmatch (Lit [newline] @@ body_part) (c :: s) g k = None.
Proof.
  intros Hc. rewrite rmatch_lit_cat, startswith_cons.
  destruct (Ascii.eqb_spec newline c) as [E|_]; [congruence|reflexivity].
Qed.

(** Group 2, the line break, and what follows. *)
Lemma title_part_some s g x :
  rmatch title_part s g accept = Some x <->
  exists c t body rest,
    s = (c :: t) ++ newline :: body ++ rest /\ ~ In newline t /\
    shortest_body body rest /\
    x = (rest, (3, body) :: (2, c :: t) :: g).
Proof.
  rewrite title_part_eq, plus_lazy_dot_some. split.
  - intros (a & b & Ha & -> & Hk & Hmin).
    rewrite rmatch_lit_cat in Hk.
    destruct (startswith [newline] b) eqn:Eb; [|discriminate].
    apply startswith_inv in Eb.
    remember (skipn (length [newline]) b) as s4 eqn:E4.
    clear E4. simpl in Eb. subst b.
    apply body_part_some in Hk.
    destruct Hk as (body & rest & -> & Hsb & ->).
    rewrite consumed_app.
    destruct a as [|c t]; [congruence|].
    exists c, t, body, rest.
    split; [reflexivity|]. split; [|split; [exact Hsb|reflexivity]].
    intros Hin. apply in_split in Hin. destruct Hin as (t1 & t2 & ->).
    specialize (Hmin (c :: t1) (newline :: t2) eq_refl).
    rewrite <- app_comm_cons, newline_body_eq in Hmin.
    eapply body_part_total; [|apply Hmin; easy].
    destruct t2; discriminate.
  - intros (c & t & body & rest & -> & Hnl & Hsb & ->).
    exists (c :: t), (newline :: body ++ rest). repeat split; try easy.
    + rewrite newline_body_eq. apply body_part_some. rewrite consumed_app.
      exists body, rest. repeat split; try easy; apply Hsb.
    + intros a1 a2 E H1 H2.
      destruct a1 as [|u a1]; [congruence|].
      simpl in E. injection E as <- ->.
      destruct a2 as [|v a2]; [congruence|].
      rewrite <- app_comm_cons. apply newline_body_none.
      intros ->. apply Hnl. apply in_or_app. right. now left.
Qed.

(** Group 1, the dot and the space, and what follows. *)
Lemma number_part_some s g x :
  rmatch number_part s g accept = Some x <->
  exists num c t body rest,
    s = num ++ txt ". " ++ (c :: t) ++ newline :: body ++ rest /\
    number num /\ ~ In newline t /\ shortest_body body rest /\
    x = (rest, (3, body) :: (2, c :: t) :: (1, num) :: g).
Proof.
  rewrite number_part_eq, plus_greedy_some.
  - split.
    + intros (a & b & Ha & Hd & -> & Hk).
      rewrite rmatch_lit_cat in Hk.
      destruct (startswith (txt ". ") b) eqn:Eb; [|discriminate].
      apply startswith_inv in Eb.
      remember (skipn (length (txt ". ")) b) as s3 eqn:E3. clear E3.
      subst b. apply title_part_some in Hk.
      destruct Hk as (c & t & body & rest & -> & Hnl & Hsb & ->).
      rewrite consumed_app.
      exists a, c, t, body, rest. repeat split; try easy; apply Hsb.
    + intros (num & c & t & body & rest & -> & [Hne Hd] & Hnl & Hsb & ->).
      exists num, (txt ". " ++ (c :: t) ++ newline :: body ++ rest).
      repeat split; try easy.
      rewrite rmatch_lit_cat, startswith_app, skipn_app_exact.
      apply title_part_some. rewrite consumed_app.
      exists c, t, body, rest. repeat split; try easy; apply Hsb.
  - intros c b Hc. rewrite rmatch_lit_cat.
    change (txt ". ") with ("."%char :: txt " ").
    rewrite startswith_cons.
    destruct (Ascii.eqb_spec "." c) as [E|_]; [|reflexivity].
    subst c. discriminate Hc.
Qed.

(** The pattern matches at the head of [s] exactly when [s] has the
    form of an issue, and then the groups and the end of the match are
    those of the form. *)
Lemma match_issue_iff s rest g :
  match_here issue_pattern s = Some (rest, g) <->
  exists num title body,
    issue_form s num title body rest /\
    g = [(3, body); (2, title); (1, num)].
Proof.
  unfold match_here. rewrite issue_pattern_parts, rmatch_lit_cat. split.
  - destruct (startswith (txt "#### ") s) eqn:Es; [|discriminate].
    apply startswith_inv in Es.
    remember (skipn (length (txt "#### ")) s) as s1 eqn:E1. clear E1.
    intros H. apply number_part_some in H.
    destruct H as (num & c & t & body & rest' & -> & Hn & Hnl & Hsb & E).
    injection E as -> ->.
    exists num, (c :: t), body. split; [|reflexivity].
    split; [exact Es|]. split; [exact Hn|]. split; [|exact Hsb].
    now exists c, t.
  - intros (num & title & body & (-> & Hn & (c & t & -> & Hnl) & Hsb) & ->).
    rewrite startswith_app, skipn_app_exact.
    apply number_part_some.
    exists num, c, t, body, rest. pieces.
Qed.

(** ** Search and findall *)

Lemma search_eq r s :
  search r s =
  match match_here r s with
  | Some x => Some x
  | None => match s with [] => None | _ :: s' => search r s' end
  end.
Proof. destruct s; reflexivity. Qed.

Lemma search_hit r s x : match_here r s = Some x -> search r s = Some x.
Proof. intros H. rewrite search_eq, H. reflexivity. Qed.

(** The search passes over every position at which the pattern fails. *)
Lemma search_skip r pre s :
  (forall a b, pre = a ++ b -> b <> [] -> match_here r (b ++ s) = None) ->
  search r (pre ++ s) = search r s.
Proof.
  induction pre as [|c pre IH]; intros H; [reflexivity|].
  rewrite search_eq, (H [] (c :: pre) eq_refl) by discriminate.
  simpl. apply IH. intros a b E Hb. apply (H (c :: a) b); [|exact Hb].
  simpl. now rewrite E.
Qed.

Lemma search_none r s :
  (forall a b, s = a ++ b -> match_here r b = None) -> search r s = None.
Proof.
  induction s as [|c s IH]; intros H; rewrite search_eq.
  - now rewrite (H [] [] eq_refl).
  - rewrite (H [] (c :: s) eq_refl). apply IH.
    intros a b E. apply (H (c :: a) b). simpl. now rewrite E.
Qed.

Lemma search_some r s x :
  search r s = Some x ->
  exists a b, s = a ++ b /\ match_here r b = Some x.
Proof.
  induction s as [|c s IH]; rewrite search_eq.
  - destruct (match_here r []) eqn:E; [|discriminate].
    intros H. injection H as <-. now exists [], [].
  - destruct (match_here r (c :: s)) eqn:E.
    + intros H. injection H as <-. now exists [], (c :: s).
    + intros H. destruct (IH H) as (a & b & -> & Hb).
      now exists (c :: a), b.
Qed.

(** A match of the pattern is never empty. *)
Lemma issue_match_shorter s rest g :
  match_here issue_pattern s = Some (rest, g) -> length rest < length s.
Proof.
  intros H. apply match_issue_iff in H.
  destruct H as (num & title & body & (-> & _) & _).
  rewrite !length_app. simpl. rewrite length_app. lia.
Qed.

Lemma issue_search_shorter s rest g :
  search issue_pattern s = Some (rest, g) -> length rest < length s.
Proof.
  intros H. apply search_some in H. destruct H as (a & b & -> & H).
  apply issue_match_shorter in H. rewrite length_app. lia.
Qed.

Lemma scan_S fuel r s :
  scan (S fuel) r s =
  match search r s with
  | None => []
  | Some (s', g) =>
      g :: (if length s' <? length s then scan fuel r s'
            else match s' with
                 | [] => []
                 | _ :: s'' => scan fuel r s''
                 end)
  end.
Proof. reflexivity. Qed.

(** Any fuel above the length of the text gives the same scan. *)
Lemma scan_issue_fuel fuel1 fuel2 s :
  length s < fuel1 -> length s < fuel2 ->
  scan fuel1 issue_pattern s = scan fuel2 issue_pattern s.
Proof.
  revert fuel2 s. induction fuel1 as [|f1 IH]; intros fuel2 s H1 H2; [lia|].
  destruct fuel2 as [|f2]; [lia|]. simpl.
  destruct (search issue_pattern s) as [[s' g]|] eqn:E; [|reflexivity].
  apply issue_search_shorter in E.
  destruct (Nat.ltb_spec (length s') (length s)) as [_|Hge]; [|lia].
  f_equal. apply IH; lia.
Qed.

Lemma findall_issue_cons s rest g :
  search issue_pattern s = Some (rest, g) ->
  findall issue_pattern s =
  (group 1 g, group 2 g, group 3 g) :: findall issue_pattern rest.
Proof.
  intros E. unfold findall. rewrite (scan_S (length s)), E.
  apply issue_search_shorter in E.
  destruct (Nat.ltb_spec (length rest) (length s)) as [_|Hge]; [|lia].
  rewrite map_cons. f_equal. f_equal. apply scan_issue_fuel; lia.
Qed.

Lemma findall_nil r s : search r s = None -> findall r s = [].
Proof. intros E. unfold findall. now rewrite scan_S, E. Qed.

(** ** Headings *)

Lemma first_newline (t : text) :
  In newline t ->
  exists t1 t2, t = t1 ++ newline :: t2 /\ ~ In newline t1.
Proof.
  induction t as [|c t IH]; intros H; [destruct H|].
  destruct (ascii_dec c newline) as [->|Hc].
  - exists [], t. split; [reflexivity|]. intros [].
  - destruct H as [H|H]; [congruence|].
    destruct (IH H) as (t1 & t2 & -> & Hn).
    exists (c :: t1), t2. split; [reflexivity|].
    intros [E|E]; [congruence|exact (Hn E)].
Qed.

(** Every non-empty text begins with a shortest body. *)
Lemma shortest_body_exists (s : text) :
  s <> [] -> exists body rest, s = body ++ rest /\ shortest_body body rest.
Proof.
  intros Hs.
  destruct (rmatch body_part s [] accept) as [x|] eqn:E.
  - apply body_part_some in E. destruct E as (body & rest & E & Hsb & _).
    now exists body, rest.
  - exfalso. revert E. now apply body_part_total.
Qed.

Lemma issue_form_heading s num title body rest :
  issue_form s num title body rest -> heading_at s.
Proof.
  intros (-> & Hn & (c & t & -> & _) & (Hb & _)).
  destruct body as [|b body]; [congruence|].
  exists num, (c :: t), b, (body ++ rest). repeat split; try apply Hn.
  discriminate.
Qed.

Lemma heading_issue_form s :
  heading_at s -> exists num title body rest, issue_form s num title body rest.
Proof.
  intros (num & title & c & r & Hn & Ht & ->).
  destruct title as [|t0 t]; [congruence|]. clear Ht.
  destruct (in_dec ascii_dec newline t) as [Hin|Hnot].
  - destruct (first_newline t Hin) as (t1 & t2 & -> & Hn1).
    destruct (@shortest_body_exists (t2 ++ newline :: c :: r))
      as (body & rest & E & Hsb); [destruct t2; discriminate|].
    exists num, (t0 :: t1), body, rest. unfold issue_form. pieces.
    + rewrite <- E. simpl. rewrite <- !app_assoc. reflexivity.
    + now exists t0, t1.
  - destruct (@shortest_body_exists (c :: r))
      as (body & rest & E & Hsb); [discriminate|].
    exists num, (t0 :: t), body, rest. unfold issue_form. pieces.
    + rewrite <- E. reflexivity.
    + now exists t0, t.
Qed.

(** A heading is recognized exactly where the pattern matches. *)
Lemma heading_iff_match s :
  heading_at s <-> match_here issue_pattern s <> None.
Proof.
  split.
  - intros H. apply heading_issue_form in H.
    destruct H as (num & title & body & rest & Hf).
    assert (E : match_here issue_pattern s =
                Some (rest, [(3, body); (2, title); (1, num)])).
    { apply match_issue_iff. now exists num, title, body. }
    rewrite E. discriminate.
  - destruct (match_here issue_pattern s) as [[rest g]|] eqn:E;
      [|congruence].
    intros _. apply match_issue_iff in E.
    destruct E as (num & title & body & Hf & _).
    eapply issue_form_heading. exact Hf.
Qed.

Lemma no_heading_no_match s :
  ~ heading_at s -> match_here issue_pattern s = None.
Proof.
  intros H. destruct (match_here issue_pattern s) eqn:E; [|reflexivity].
  exfalso. apply H. apply heading_iff_match. rewrite E. discriminate.
Qed.

(** One step of [findall]: the text before the first heading is passed
    over, and the scan resumes after the body. *)
Lemma findall_step pre s num title body rest :
  (forall a b, pre = a ++ b -> b <> [] -> ~ heading_at (b ++ s)) ->
  issue_form s num title body rest ->
  findall issue_pattern (pre ++ s) =
  (num, title, body) :: findall issue_pattern rest.
Proof.
  intros Hpre Hf.
  assert (E : search issue_pattern (pre ++ s) =
              Some (rest, [(3, body); (2, title); (1, num)])).
  { rewrite search_skip.
    - apply search_hit, match_issue_iff. now exists num, title, body.
    - intros a b E Hb. apply no_heading_no_match. now apply (Hpre a b). }
  rewrite (findall_issue_cons _ E). reflexivity.
Qed.

Lemma findall_no_heading s :
  (forall a b, s = a ++ b -> ~ heading_at b) ->
  findall issue_pattern s = [].
Proof.
  intros H. apply findall_nil, search_none.
  intros a b E. apply no_heading_no_match. now apply (H a b).
Qed.

(** ** Blocks *)

(** A boundary cannot begin inside [b] and end beyond it when a line
    break follows [b]. *)
Lemma boundary_inside b x d r :
  b <> [] -> isdigit d = true ->
  b ++ newline :: x = newline :: txt "#### " ++ d :: r ->
  exists b', b = newline :: txt "#### " ++ d :: b'.
Proof.
  intros Hb Hd E. cbn in E.
  destruct b as [|c0 b]; [congruence|].
  injection E as -> E.
  destruct b as [|c1 b]; [discriminate E|]. injection E as -> E.
  destruct b as [|c2 b]; [discriminate E|]. injection E as -> E.
  destruct b as [|c3 b]; [discriminate E|]. injection E as -> E.
  destruct b as [|c4 b]; [discriminate E|]. injection E as -> E.
  destruct b as [|c5 b]; [discriminate E|]. injection E as -> E.
  destruct b as [|c6 b].
  - injection E as <- _. discriminate Hd.
  - injection E as -> E. now exists b.
Qed.

Lemma body_before_heading body num r :
  body <> [] -> no_inner_boundary body -> number num ->
  shortest_body body (newline :: txt "#### " ++ num ++ r).
Proof.
  intros Hb Hin [Hne Hd]. destruct num as [|d num]; [congruence|].
  simpl in Hd. apply andb_true_iff in Hd. destruct Hd as [Hd _].
  split; [exact Hb|]. split.
  - left. exists d, (num ++ r). split; [exact Hd|reflexivity].
  - intros b1 b2 -> H1 H2 [(d' & r' & Hd' & E)|[E|E]].
    + apply boundary_inside in E; [|exact H2|exact Hd'].
      destruct E as [b' ->]. now apply (Hin b1 d' b').
    + destruct b2; [congruence|discriminate E].
    + destruct b2 as [|c [|c' b2]]; [congruence|discriminate E..].
Qed.

Lemma body_before_newline body :
  body <> [] -> no_inner_boundary body -> shortest_body body [newline].
Proof.
  intros Hb Hin. split; [exact Hb|]. split; [right; now right|].
  intros b1 b2 -> H1 H2 [(d' & r' & Hd' & E)|[E|E]].
  - apply boundary_inside in E; [|exact H2|exact Hd'].
    destruct E as [b' ->]. now apply (Hin b1 d' b').
  - destruct b2; [congruence|discriminate E].
  - destruct b2 as [|c [|c' b2]]; [congruence|discriminate E..].
Qed.

Lemma body_before_end body :
  body <> [] -> no_inner_boundary body ->
  (forall b, body = b ++ [newline] -> b = []) ->
  shortest_body body [].
Proof.
  intros Hb Hin Hend. split; [exact Hb|]. split; [right; now left|].
  intros b1 b2 -> H1 H2. rewrite app_nil_r.
  intros [(d' & r' & Hd' & ->)|[->| ->]].
  - now apply (Hin b1 d' r').
  - congruence.
  - apply H1. now apply Hend.
Qed.

Lemma newline_not_heading s : ~ heading_at (newline :: s).
Proof. intros (num & title & c & rest & _ & _ & E). discriminate E. Qed.

Lemma block_form num title body r :
  number num -> title <> [] -> ~ In newline title ->
  shortest_body body r ->
  issue_form (block (num, title, body) ++ r) num title body r.
Proof.
  intros Hn Ht Hnl Hsb. unfold issue_form. pieces.
  - unfold block. rewrite <- !app_assoc. reflexivity.
  - destruct title as [|c t]; [congruence|]. exists c, t.
    split; [reflexivity|]. intros H. apply Hnl. now right.
Qed.

Lemma blocks_head num title body es trail :
  exists r,
    blocks ((num, title, body) :: es) ++ trail = txt "#### " ++ num ++ r.
Proof.
  destruct es as [|e es].
  - exists (txt ". " ++ title ++ newline :: body ++ trail).
    change (blocks [(num, title, body)]) with (block (num, title, body)).
    unfold block. rewrite <- !app_assoc. reflexivity.
  - exists (txt ". " ++ title ++ newline :: body
            ++ newline :: blocks (e :: es) ++ trail).
    change (blocks ((num, title, body) :: e :: es))
      with (block (num, title, body) ++ newline :: blocks (e :: es)).
    unfold block. rewrite <- !app_assoc. reflexivity.
Qed.

(** Blocks that stand one per line are found one by one: the entries of
    [findall] are the blocks' entries, in their order. *)
Lemma findall_blocks es : forall pre trail,
  (forall a b, pre = a ++ b -> b <> [] ->
               ~ heading_at (b ++ blocks es ++ trail)) ->
  Forall entry_ok es -> clean_end es trail ->
  findall issue_pattern (pre ++ blocks es ++ trail) = es.
Proof.
  induction es as [|[[num title] body] es IH]; intros pre trail Hpre Hok Hend.
  - apply findall_nil. rewrite search_skip.
    + destruct Hend as [->|[-> _]]; reflexivity.
    + intros a b E Hb. apply no_heading_no_match. now apply (Hpre a b).
  - pose proof (Forall_inv Hok) as (Hn & Ht & Hnl & Hb & Hin).
    pose proof (Forall_inv_tail Hok) as Hok'.
    destruct es as [|[[num' title'] body'] es].
    + change (blocks [(num, title, body)]) with (block (num, title, body))
        in *.
      rewrite (@findall_step pre _ num title body trail Hpre).
      * f_equal. destruct Hend as [->|[-> _]]; reflexivity.
      * apply block_form; try assumption.
        destruct Hend as [->|[-> Hlast]].
        { now apply body_before_newline. }
        { apply body_before_end; try assumption.
          intros b ->. apply (Hlast [] num title b). reflexivity. }
    + set (es' := (num', title', body') :: es) in *.
      assert (Eb : blocks ((num, title, body) :: es') ++ trail =
                   block (num, title, body)
                   ++ [newline] ++ blocks es' ++ trail).
      { change (blocks ((num, title, body) :: es'))
          with (block (num, title, body) ++ newline :: blocks es').
        rewrite <- app_assoc. reflexivity. }
      rewrite Eb in *.
      rewrite (@findall_step pre _ num title body
                 ([newline] ++ blocks es' ++ trail) Hpre).
      * f_equal. apply IH.
        { intros a b E Hne.
          destruct a as [|c a].
          - simpl in E. subst b. apply newline_not_heading.
          - destruct a; destruct b; try discriminate E. congruence. }
        { exact Hok'. }
        { destruct Hend as [->|[-> Hlast]]; [now left|right].
          split; [reflexivity|]. intros es0 n t b E.
          apply (Hlast ((num, title, body) :: es0) n t b).
          simpl. now rewrite E. }
      * apply block_form; try assumption.
        pose proof (Forall_inv Hok') as (Hn' & _).
        subst es'.
        destruct (blocks_head num' title' body' es trail) as [r Es].
        change ([newline] ++ blocks ((num', title', body') :: es) ++ trail)
          with (newline :: (blocks ((num', title', body') :: es) ++ trail)).
        rewrite Es. now apply body_before_heading.
Qed.

(** ** find and slices *)

Lemma find_from_eq i s sub :
  find_from i s sub =
  if startswith sub s then i
  else match s with
       | [] => (-1)%Z
       | _ :: s' => find_from (i + 1) s' sub
       end.
Proof. destruct s; reflexivity. Qed.

(** [find] gives the position of the first occurrence, or -1 when there
    is none. *)
Lemma find_from_spec sub s : forall i,
  (exists pre post,
      s = pre ++ sub ++ post /\
      find_from i s sub = (i + Z.of_nat (length pre))%Z /\
      forall pre' post', s = pre' ++ sub ++ post' ->
                         length pre <= length pre')
  \/ (find_from i s sub = (-1)%Z /\ ~ occurs sub s).
Proof.
  induction s as [|c s IH]; intros i; rewrite find_from_eq.
  - destruct (startswith sub []) eqn:E.
    + left. apply startswith_inv in E. exists [], (skipn (length sub) []).
      split; [exact E|]. split; [simpl; lia|]. intros; simpl; lia.
    + right. split; [reflexivity|]. intros (a & b & H).
      destruct a; [|discriminate H]. destruct sub; [|discriminate H].
      discriminate E.
  - destruct (startswith sub (c :: s)) eqn:E.
    + left. apply startswith_inv in E.
      exists [], (skipn (length sub) (c :: s)).
      split; [exact E|]. split; [simpl; lia|]. intros; simpl; lia.
    + destruct (IH (i + 1)%Z)
        as [(pre & post & -> & Hf & Hmin)|[Hf Hno]].
      * left. exists (c :: pre), post. split; [reflexivity|].
        split; [rewrite Hf; simpl length; lia|].
        intros pre' post' H. destruct pre' as [|c' pre'].
        { simpl in H. rewrite H, startswith_app in E. discriminate E. }
        { simpl in H. injection H as _ H. apply Hmin in H. simpl. lia. }
      * right. split; [exact Hf|]. intros (a & b & H).
        destruct a as [|c' a].
        { simpl in H. rewrite H, startswith_app in E. discriminate E. }
        { simpl in H. injection H as _ H. apply Hno. now exists a, b. }
Qed.

Lemma slice_from_length pre s :
  slice_from (pre ++ s) (Z.of_nat (length pre)) = s.
Proof.
  unfold slice_from.
  destruct (Z.ltb_spec (Z.of_nat (length pre)) 0) as [H|_]; [lia|].
  rewrite Nat2Z.id. apply skipn_app_exact.
Qed.

(** ** strip *)

Lemma lstrip_spec s :
  exists l, s = l ++ lstrip s /\ forallb isspace l = true /\
            forall c t, lstrip s = c :: t -> isspace c = false.
Proof.
  induction s as [|c s (l & E & Hl & Hc)]; simpl.
  - exists []. repeat split. discriminate.
  - destruct (isspace c) eqn:Ec.
    + exists (c :: l). split; [simpl; now rewrite <- E|].
      split; [simpl; now rewrite Ec|exact Hc].
    + exists []. repeat split. intros c' t H. injection H as <- _.
      exact Ec.
Qed.

Lemma rstrip_spec s :
  exists r, s = rstrip s ++ r /\ forallb isspace r = true /\
            forall c t, rstrip s = t ++ [c] -> isspace c = false.
Proof.
  unfold rstrip. destruct (lstrip_spec (rev s)) as (l & E & Hl & Hc).
  exists (rev l). split; [|split].
  - rewrite <- rev_app_distr, <- E. symmetry. apply rev_involutive.
  - apply forallb_forall. intros x Hx. apply in_rev in Hx.
    rewrite forallb_forall in Hl. now apply Hl.
  - intros c t H. apply (Hc c (rev t)).
    rewrite <- (rev_involutive (lstrip (rev s))), H, rev_app_distr.
    reflexivity.
Qed.

(** [strip] removes exactly the white space at both ends. *)
Lemma strip_trimmed s : trimmed s (strip s).
Proof.
  unfold strip.
  destruct (lstrip_spec s) as (l & El & Hl & Hfirst).
  destruct (rstrip_spec (lstrip s)) as (r & Er & Hr & Hlast).
  split; [|split].
  - exists l, r. split; [|now split]. now rewrite <- Er.
  - intros c t H. rewrite H in Er. simpl in Er.
    eapply Hfirst. exact Er.
  - exact Hlast.
Qed.

(** ** The section of the document *)

Lemma phase9_section_found content :
  occurs marker content ->
  exists pre post,
    content = pre ++ marker ++ post /\
    (forall pre' post', content = pre' ++ marker ++ post' ->
                        length pre <= length pre') /\
    phase9_section content = Some (marker ++ post).
Proof.
  intros Hocc. unfold phase9_section, find.
  destruct (find_from_spec marker content 0)
    as [(pre & post & -> & Hf & Hmin)|[_ Hno]]; [|contradiction].
  exists pre, post. split; [reflexivity|]. split; [exact Hmin|].
  rewrite Hf.
  destruct (Z.eqb_spec (0 + Z.of_nat (length pre)) (-1)) as [H|_]; [lia|].
  rewrite Z.add_0_l, slice_from_length. reflexivity.
Qed.

Lemma phase9_section_absent content :
  ~ occurs marker content -> phase9_section content = None.
Proof.
  intros Hno. unfold phase9_section, find.
  destruct (find_from_spec marker content 0)
    as [(pre & post & E & _)|[-> _]]; [|reflexivity].
  exfalso. apply Hno. now exists pre, post.
Qed.

(** ** Runs of the program *)

Section Runs.

Variable World : Type.
Variable urlopen : World -> request -> World * http_result.
Variable read_number : text -> text + text.
Variable TOKEN : option text.

Local Abbreviation main' := (main urlopen read_number TOKEN).
Local Abbreviation submit_all' := (submit_all urlopen read_number TOKEN).
Local Abbreviation run' := (run urlopen read_number TOKEN).
Local Abbreviation attempt' := (attempt read_number TOKEN).
Local Abbreviation request_of' := (request_of TOKEN).

(** [main] in terms of the section it extracts. *)
Lemma main_eq content st :
  main' content st =
  match phase9_section content with
  | None => print (txt "Phase 9 not found") st
  | Some phase9_content =>
      let matches := findall issue_pattern phase9_content in
      bind (print (found_line (length matches)))
           (fun _ => submit_all' matches) st
  end.
Proof.
  unfold main, phase9_section.
  destruct (find content marker =? -1)%Z; reflexivity.
Qed.

(** The loop makes one attempt per match, in order, whatever [urlopen]
    gives. *)
Lemma submit_all_events matches : forall st,
  events (snd (submit_all' matches st)) =
  events st ++
  flat_map attempt'
    (combine matches (replies urlopen (world st) (map request_of' matches))).
Proof.
  induction matches as [|[[num title] body] matches IH]; intros st.
  - simpl. now rewrite app_nil_r.
  - simpl submit_all. unfold bind at 1. unfold create_issue at 1.
    unfold bind at 1. unfold call_urlopen at 1.
    simpl map. simpl replies. unfold request_of at 1.
    destruct (urlopen (world st)
                (issue_request TOKEN (full_title num title) (strip body)))
      as [w r].
    simpl combine. simpl flat_map.
    destruct r as [e|e|content]; simpl outcome_line;
      [| |destruct (read_number content) as [e|number]];
      unfold bind, print, ret; rewrite IH; simpl;
      rewrite <- !app_assoc; reflexivity.
Qed.

Lemma replies_length w reqs :
  length (replies urlopen w reqs) = length reqs.
Proof.
  revert w. induction reqs as [|q reqs IH]; intros w; simpl.
  - reflexivity.
  - destruct (urlopen w q) as [w' r]. simpl. now rewrite IH.
Qed.

Lemma requests_attempts ms rs :
  length rs = length ms ->
  requests (flat_map attempt' (combine ms rs)) = map request_of' ms.
Proof.
  revert rs. induction ms as [|[[num title] body] ms IH]; intros rs H.
  - reflexivity.
  - destruct rs as [|r rs]; [discriminate H|]. simpl in H.
    simpl. f_equal. apply IH. lia.
Qed.

(** The events of a run in which the marker is found. *)
Lemma run_found content w phase9_content :
  phase9_section content = Some phase9_content ->
  events (run' content w) =
  Print (found_line (length (findall issue_pattern phase9_content))) ::
  flat_map attempt'
    (combine (findall issue_pattern phase9_content)
       (replies urlopen w
          (map request_of' (findall issue_pattern phase9_content)))).
Proof.
  intros E. unfold run. rewrite main_eq, E. cbv zeta.
  unfold bind at 1. unfold print at 1.
  rewrite submit_all_events. reflexivity.
Qed.

Lemma run_absent content w :
  phase9_section content = None ->
  run' content w =
  {| world := w; events := [Print (txt "Phase 9 not found")] |}.
Proof. intros E. unfold run. rewrite main_eq, E. reflexivity. Qed.

End Runs.

(** ** Deciding the side conditions on given texts *)

Lemma quiet_sound pre s :
  quiet pre s = true ->
  forall a b, pre = a ++ b -> b <> [] -> ~ heading_at (b ++ s).
Proof.
  intros H a b -> Hb Hh. unfold quiet in H. rewrite forallb_forall in H.
  specialize (H (length a)). rewrite skipn_app_exact in H.
  apply heading_iff_match in Hh.
  destruct (match_here issue_pattern (b ++ s)); [|congruence].
  assert (Hin : In (length a) (seq 0 (length (a ++ b)))).
  { apply in_seq. rewrite length_app. destruct b; [congruence|].
    simpl. lia. }
  specialize (H Hin). discriminate H.
Qed.

Lemma quiet_everywhere s :
  quiet s [] = true -> forall a b, s = a ++ b -> ~ heading_at b.
Proof.
  intros H a b E. destruct b as [|c b].
  - intros (num & title & c & rest & _ & _ & E'). discriminate E'.
  - rewrite <- (app_nil_r (c :: b)).
    apply (@quiet_sound s [] H a (c :: b) E). discriminate.
Qed.

Lemma no_newline_no_inner body :
  ~ In newline body -> no_inner_boundary body.
Proof.
  intros H b1 d b2 _ _ ->. apply H. apply in_or_app. right. now left.
Qed.

Lemma find_absent s sub : find s sub = (-1)%Z -> ~ occurs sub s.
Proof.
  unfold find. intros E.
  destruct (find_from_spec sub s 0) as [(pre & post & _ & Hf & _)|[_ H]];
    [lia|exact H].
Qed.

Lemma heading_boundary s : heading_at s -> boundary (newline :: s).
Proof.
  intros (num & title & c & rest & [Hne Hd] & _ & ->).
  destruct num as [|d num]; [congruence|].
  simpl in Hd. apply andb_true_iff in Hd. destruct Hd as [Hd _].
  left. exists d, (num ++ txt ". " ++ title ++ newline :: c :: rest).
  split; [exact Hd|reflexivity].
Qed.

Lemma no_newline_check t :
  forallb (fun c => negb (Ascii.eqb c newline)) t = true -> ~ In newline t.
Proof.
  intros H Hin. rewrite forallb_forall in H. specialize (H _ Hin).
  rewrite Ascii.eqb_refl in H. discriminate H.
Qed.

(** The payloads of a run are those of the matches, whatever the
    environment does. *)
Lemma run_requests (World : Type)
    (urlopen : World -> request -> World * http_result)
    (read_number : text -> text + text) (TOKEN : option text)
    (content : text) (w : World) :
  requests (events (run urlopen read_number TOKEN content w)) =
  map (request_of TOKEN) (entries content).
Proof.
  unfold entries. destruct (phase9_section content) as [sec|] eqn:E.
  - rewrite (run_found urlopen read_number TOKEN content w E).
    simpl requests. apply requests_attempts.
    now rewrite replies_length, length_map.
  - now rewrite run_absent.
Qed.

(** ** The claims *)

(** C1 as stated fails.  In [cut_section] two headings are recognized
    and no heading is recognized in the text between them, yet the body
    of the first entry is only the first line of that text: it ends at
    the line [#### 12].  And two heading lines with nothing but a line
    break between them give one entry, whose body holds the second
    heading line. *)
Lemma body_is_not_the_text_between :
  findall issue_pattern cut_section =
    [ (txt "1", txt "A", txt "foo"); (txt "2", txt "B", txt "baz") ]
  /\ quiet cut_between (newline :: block (txt "2", txt "B", txt "baz")) = true
  /\ txt "foo" <> cut_between
  /\ findall issue_pattern
       (blocks [ (txt "1", txt "A", []); (txt "2", txt "B", txt "foo") ]) =
     [ (txt "1", txt "A", newline :: txt "#### 2. B" ++ newline :: txt "foo") ].
Proof.
  split; [vm_compute; reflexivity|].
  split; [vm_compute; reflexivity|].
  split; [discriminate|vm_compute; reflexivity].
Qed.

(** C1, amended.  A section made of a prefix in which no heading is
    recognized, then N blocks separated by single line breaks, then
    nothing or one line break, where each block is [#### ], a number,
    [. ], a title without line break, a line break and a non-empty body
    that has, after its first character, no line break followed by
    [#### ] and a digit (and, when nothing follows the last block, its
    body does not end in a line break): [findall] gives exactly the N
    entries of the blocks, in order, each with its own number, title and
    body. *)
Theorem parse_blocks_in_order pre es trail :
  (forall a b, pre = a ++ b -> b <> [] ->
               ~ heading_at (b ++ blocks es ++ trail)) ->
  Forall entry_ok es ->
  clean_end es trail ->
  findall issue_pattern (pre ++ blocks es ++ trail) = es
  /\ length (findall issue_pattern (pre ++ blocks es ++ trail)) = length es.
Proof.
  intros Hpre Hok Hend.
  rewrite (@findall_blocks es pre trail Hpre Hok Hend). now split.
Qed.

Lemma parse_blocks_in_order_witness :
  findall issue_pattern sample_section = sample_entries
  /\ length (findall issue_pattern sample_section) = 3.
Proof.
  apply (@parse_blocks_in_order (txt "### Phase 9" ++ [newline])
           sample_entries [newline]).
  - apply quiet_sound. vm_compute. reflexivity.
  - repeat constructor; try discriminate;
      try (apply no_newline_check; reflexivity);
      apply no_newline_no_inner, no_newline_check; reflexivity.
  - left. reflexivity.
Defined.

(** C2 as stated fails.  A line that begins with digits, a dot and a
    space is not a heading without [#### ] before the digits, and a
    heading need not begin its line. *)
Lemma digits_alone_are_no_heading :
  findall issue_pattern (txt "7. Title" ++ newline :: txt "Some body.") = []
  /\ findall issue_pattern
       (txt "see #### 7. Title" ++ newline :: txt "Some body.") =
     [ (txt "7", txt "Title", txt "Some body.") ].
Proof. split; vm_compute; reflexivity. Qed.

(** C2, amended.  A heading is recognized at a position exactly when the
    text there is [#### ], one or more digits, [. ], a non-empty title,
    a line break and at least one more character, wherever in its line
    the position is.  The match then has the form of an issue: the title
    ends at the first line break after its first character, and the body
    is the shortest non-empty text that a boundary follows.  On
    [#### 7. Title], a line break and [Some body.], [findall] gives the
    one entry (7, Title, Some body.). *)
Theorem heading_recognized_iff :
  (forall s, heading_at s <-> match_here issue_pattern s <> None)
  /\ (forall s rest g,
        match_here issue_pattern s = Some (rest, g) <->
        exists num title body,
          issue_form s num title body rest /\
          g = [(3, body); (2, title); (1, num)])
  /\ findall issue_pattern
       (txt "#### 7. Title" ++ newline :: txt "Some body.") =
     [ (txt "7", txt "Title", txt "Some body.") ].
Proof.
  split; [exact heading_iff_match|].
  split; [exact match_issue_iff|vm_compute; reflexivity].
Qed.

(** C3.  When the marker occurs in the document, the section begins at
    the first occurrence of the marker and runs to the end of the
    document; when it does not occur, there is no section.  [main]
    goes on with that section, or returns early. *)
Theorem section_from_first_marker content :
  (occurs marker content ->
   exists pre post,
     content = pre ++ marker ++ post /\
     (forall pre' post', content = pre' ++ marker ++ post' ->
                         length pre <= length pre') /\
     phase9_section content = Some (marker ++ post))
  /\ (~ occurs marker content -> phase9_section content = None)
  /\ (forall (World : Type) urlopen read_number TOKEN (st : state World),
        main urlopen read_number TOKEN content st =
        match phase9_section content with
        | None => print (txt "Phase 9 not found") st
        | Some phase9_content =>
            let matches := findall issue_pattern phase9_content in
            bind (print (found_line (length matches)))
                 (fun _ => submit_all urlopen read_number TOKEN matches) st
        end).
Proof.
  split; [apply phase9_section_found|].
  split; [apply phase9_section_absent|].
  intros. apply main_eq.
Qed.

Lemma section_from_first_marker_witness :
  (exists pre post,
     sample_document = pre ++ marker ++ post /\
     (forall pre' post', sample_document = pre' ++ marker ++ post' ->
                         length pre <= length pre') /\
     phase9_section sample_document = Some (marker ++ post))
  /\ phase9_section (txt "# Plan") = None.
Proof.
  split.
  - apply (proj1 (section_from_first_marker sample_document)).
    exists (txt "# Plan" ++ [newline]).
    exists (newline :: blocks sample_entries ++ [newline]).
    reflexivity.
  - apply (proj1 (proj2 (section_from_first_marker (txt "# Plan")))).
    apply find_absent. reflexivity.
Defined.

(** C4.  Whatever [urlopen] and the decoding of its response give, the
    loop sends exactly one request per entry, in order, and after each
    request prints the line for its outcome; a transport error, a status
    that is not a success and a response that cannot be read each give
    the line [Failed to create issue], the title, and the reason. *)
Theorem every_entry_attempted (World : Type)
    (urlopen : World -> request -> World * http_result)
    (read_number : text -> text + text) (TOKEN : option text)
    (matches : list (text * text * text)) (st : state World) :
  let rs := replies urlopen (world st) (map (request_of TOKEN) matches) in
  length rs = length matches
  /\ events (snd (submit_all urlopen read_number TOKEN matches st)) =
     events st ++ flat_map (attempt read_number TOKEN) (combine matches rs)
  /\ requests (flat_map (attempt read_number TOKEN) (combine matches rs)) =
     map (request_of TOKEN) matches
  /\ (forall title e,
        outcome_line read_number title (URLError e) = failed_line title e)
  /\ (forall title e,
        outcome_line read_number title (HTTPError e) = failed_line title e)
  /\ (forall title content,
        outcome_line read_number title (Response content) =
        match read_number content with
        | inl e => failed_line title e
        | inr number => created_line number title
        end).
Proof.
  cbv zeta.
  assert (Hlen : length (replies urlopen (world st)
                           (map (request_of TOKEN) matches))
                 = length matches)
    by now rewrite replies_length, length_map.
  split; [exact Hlen|].
  split; [apply submit_all_events|].
  split; [now apply requests_attempts|].
  repeat split.
Qed.

(** The second of three submissions fails in transport: the first and
    the third are made and succeed all the same. *)
Lemma every_entry_attempted_witness :
  events (snd (submit_all sample_urlopen sample_read_number None
                 sample_entries {| world := 0; events := [] |})) =
  [ Urlopen (request_of None (txt "1", txt "First Task",
                              txt "Do the first thing."));
    Print (txt "Created issue #1: 1. First Task");
    Urlopen (request_of None (txt "2", txt "Second Task",
                              txt "Do the second thing."));
    Print (txt "Failed to create issue 2. Second Task: timed out");
    Urlopen (request_of None (txt "3", txt "Third Task",
                              txt "Do the third thing."));
    Print (txt "Created issue #3: 3. Third Task") ].
Proof.
  exact (proj1 (proj2 (every_entry_attempted sample_urlopen
           sample_read_number None sample_entries
           {| world := 0; events := [] |}))).
Defined.

(** C5.  The payload of the request sent for an entry is the object
    whose title is the number, [. ] and the trimmed title, whose body is
    the trimmed body, and whose labels are the one label
    [new_for_wave]; trimming removes exactly the white space at both
    ends. *)
Theorem payload_of_each_entry (World : Type)
    (urlopen : World -> request -> World * http_result)
    (read_number : text -> text + text) (TOKEN : option text)
    (content : text) (w : World) :
  map data (requests (events (run urlopen read_number TOKEN content w))) =
  map (fun '(num, title, body) =>
         JObject [ (txt "title", JString (num ++ txt ". " ++ strip title));
                   (txt "body", JString (strip body));
                   (txt "labels", JArray [JString (txt "new_for_wave")]) ])
      (entries content)
  /\ (forall s, trimmed s (strip s)).
Proof.
  split; [|exact strip_trimmed].
  rewrite run_requests, map_map. apply map_ext.
  intros [[num title] body]. reflexivity.
Qed.

(** C6.  When the marker does not occur in the document, the run prints
    the one line [Phase 9 not found] and ends: nothing else is printed,
    no request is sent, and the world is as it was. *)
Theorem absent_marker_ends_run (World : Type)
    (urlopen : World -> request -> World * http_result)
    (read_number : text -> text + text) (TOKEN : option text)
    (content : text) (w : World) :
  ~ occurs marker content ->
  run urlopen read_number TOKEN content w =
    {| world := w; events := [Print (txt "Phase 9 not found")] |}
  /\ requests (events (run urlopen read_number TOKEN content w)) = []
  /\ entries content = [].
Proof.
  intros H. apply phase9_section_absent in H.
  unfold entries. rewrite run_absent, H by exact H. repeat split.
Qed.

Lemma absent_marker_ends_run_witness :
  run sample_urlopen sample_read_number None
      (txt "## Phase 8" ++ newline :: blocks sample_entries) 0 =
    {| world := 0; events := [Print (txt "Phase 9 not found")] |}
  /\ requests (events (run sample_urlopen sample_read_number None
                 (txt "## Phase 8" ++ newline :: blocks sample_entries) 0))
     = []
  /\ entries (txt "## Phase 8" ++ newline :: blocks sample_entries) = [].
Proof.
  apply absent_marker_ends_run. apply find_absent. reflexivity.
Defined.

Lemma printed_attempts read_number TOKEN ms rs :
  length rs = length ms ->
  length (printed (flat_map (attempt read_number TOKEN) (combine ms rs))) =
  length ms.
Proof.
  revert rs. induction ms as [|[[num title] body] ms IH]; intros rs H.
  - reflexivity.
  - destruct rs as [|r rs]; [discriminate H|]. simpl in H.
    simpl. f_equal. apply IH. lia.
Qed.

(** C7.  A section in which no heading is recognized at any position
    gives no entry, and the run on it prints the count line for zero
    entries and nothing else: no request is sent and the world is as it
    was. *)
Theorem no_heading_empty_run section :
  (forall a b, section = a ++ b -> ~ heading_at b) ->
  findall issue_pattern section = []
  /\ forall (World : Type) urlopen read_number TOKEN content (w : World),
       phase9_section content = Some section ->
       run urlopen read_number TOKEN content w =
       {| world := w;
          events := [Print (txt "Found 0 issues to create for Phase 9.")] |}.
Proof.
  intros H. pose proof (findall_no_heading H) as E.
  split; [exact E|].
  intros World urlopen read_number TOKEN content w Hs.
  unfold run. rewrite main_eq, Hs. cbv zeta. rewrite E. reflexivity.
Qed.

Lemma no_heading_empty_run_witness :
  findall issue_pattern (txt "### Phase 9" ++ newline :: txt "#### 12") = []
  /\ forall (World : Type) urlopen read_number TOKEN content (w : World),
       phase9_section content =
         Some (txt "### Phase 9" ++ newline :: txt "#### 12") ->
       run urlopen read_number TOKEN content w =
       {| world := w;
          events := [Print (txt "Found 0 issues to create for Phase 9.")] |}.
Proof.
  apply no_heading_empty_run. apply quiet_everywhere. reflexivity.
Defined.

(** C8.  Parsing is a function of the section text alone.  The scan
    behind [findall] gives the same entries for every bound above the
    length of the text, so [findall] is defined on every text and its
    result depends on no bound; and the payloads a run sends for a
    document are the same in any two environments. *)
Theorem parsing_deterministic s fuel :
  length s < fuel ->
  map groups3 (scan fuel issue_pattern s) = findall issue_pattern s
  /\ (forall s', s' = s ->
        findall issue_pattern s' = findall issue_pattern s)
  /\ (forall (W1 W2 : Type) urlopen1 urlopen2 read1 read2 TOKEN1 TOKEN2
             (w1 : W1) (w2 : W2),
        map data (requests (events (run urlopen1 read1 TOKEN1 s w1))) =
        map data (requests (events (run urlopen2 read2 TOKEN2 s w2)))).
Proof.
  intros H. split; [|split].
  - unfold findall. f_equal. apply scan_issue_fuel; lia.
  - intros s' ->. reflexivity.
  - intros. rewrite !run_requests, !map_map. apply map_ext.
    intros [[num title] body]. reflexivity.
Qed.

Lemma parsing_deterministic_witness :
  map groups3 (scan 1000 issue_pattern sample_section) =
    findall issue_pattern sample_section
  /\ (forall s', s' = sample_section ->
        findall issue_pattern s' = findall issue_pattern sample_section)
  /\ (forall (W1 W2 : Type) urlopen1 urlopen2 read1 read2 TOKEN1 TOKEN2
             (w1 : W1) (w2 : W2),
        map data
          (requests (events (run urlopen1 read1 TOKEN1 sample_section w1))) =
        map data
          (requests (events (run urlopen2 read2 TOKEN2 sample_section w2)))).
Proof.
  apply parsing_deterministic. vm_compute. lia.
Defined.

(** The decimal text of a number: digits that write the number, with no
    zero in front. *)
Lemma uint_digits u :
  forallb isdigit (txt (NilEmpty.string_of_uint u)) = true.
Proof. induction u; simpl; auto. Qed.

Lemma uint_value u : forall acc,
  fold_left (fun acc c => 10 * acc + digit_value c)
            (txt (NilEmpty.string_of_uint u)) acc =
  Nat.of_uint_acc u acc.
Proof.
  induction u; intros acc; simpl; [reflexivity|..];
    rewrite IHu; f_equal; rewrite Nat.tail_mul_spec;
    unfold digit_value; simpl; lia.
Qed.

Lemma to_uint_normal n :
  Nat.to_uint n = Decimal.unorm (Nat.to_uint n).
Proof.
  rewrite <- (DecimalNat.Unsigned.to_of (Nat.to_uint n)).
  now rewrite DecimalNat.Unsigned.of_to.
Qed.

Lemma str_of_nat_decimal n :
  str_of_nat n <> []
  /\ forallb isdigit (str_of_nat n) = true
  /\ (str_of_nat n = txt "0"
      \/ exists c t, str_of_nat n = c :: t /\ c <> "0"%char)
  /\ decimal_value (str_of_nat n) = n.
Proof.
  assert (Hlead : str_of_nat n = txt "0"
                  \/ exists c t, str_of_nat n = c :: t /\ c <> "0"%char).
  { unfold str_of_nat. pose proof (to_uint_normal n) as H.
    unfold Decimal.unorm in H.
    destruct (Decimal.nzhead (Nat.to_uint n)) eqn:Ez; rewrite H;
      try (right; eexists; eexists; split; [reflexivity|discriminate]).
    - now left.
    - exfalso. exact (DecimalFacts.nzhead_nonzero _ _ Ez). }
  split; [|split; [apply uint_digits|split; [exact Hlead|]]].
  - destruct Hlead as [->|(c & t & -> & _)]; discriminate.
  - unfold decimal_value, str_of_nat. rewrite uint_value.
    apply DecimalNat.Unsigned.of_to.
Qed.

(** C9.  In a run that has a section, the first event is the line
    [Found N issues to create for Phase 9.], where N is the number of
    entries written in decimal; every request and every line about an
    outcome comes after it. *)
Theorem count_line_first (World : Type)
    (urlopen : World -> request -> World * http_result)
    (read_number : text -> text + text) (TOKEN : option text)
    (content : text) (w : World) (section : text) :
  phase9_section content = Some section ->
  exists count rest,
    events (run urlopen read_number TOKEN content w) =
      Print (txt "Found " ++ count
             ++ txt " issues to create for Phase 9.") :: rest
    /\ count <> []
    /\ forallb isdigit count = true
    /\ (count = txt "0" \/ exists c t, count = c :: t /\ c <> "0"%char)
    /\ decimal_value count = length (findall issue_pattern section)
    /\ requests rest = map (request_of TOKEN) (findall issue_pattern section)
    /\ length (printed rest) = length (findall issue_pattern section).
Proof.
  intros E. rewrite (run_found urlopen read_number TOKEN content w E).
  destruct (str_of_nat_decimal (length (findall issue_pattern section)))
    as (Hne & Hd & Hlead & Hv).
  exists (str_of_nat (length (findall issue_pattern section))).
  eexists. split; [reflexivity|].
  split; [exact Hne|]. split; [exact Hd|]. split; [exact Hlead|].
  split; [exact Hv|].
  assert (Hlen : length (replies urlopen w
                   (map (request_of TOKEN) (findall issue_pattern section)))
                 = length (findall issue_pattern section))
    by now rewrite replies_length, length_map.
  split; [now apply requests_attempts|now apply printed_attempts].
Qed.

(** On the sample document, whose second submission fails: the count
    line says 3, and three requests and three lines follow it. *)
Lemma count_line_first_witness :
  exists rest,
    events (run sample_urlopen sample_read_number None sample_document 0) =
      Print (txt "Found 3 issues to create for Phase 9.") :: rest
    /\ requests rest = map (request_of None) sample_entries
    /\ length (printed rest) = 3.
Proof.
  destruct (@count_line_first nat sample_urlopen sample_read_number None
              sample_document 0 sample_section eq_refl)
    as (count & rest & E & _ & _ & _ & _ & Hr & Hp).
  exists rest. split; [|split].
  - rewrite E. do 2 f_equal.
    assert (Ec : count = txt "3"); [|now rewrite Ec].
    vm_compute in E. injection E as E _.
    apply (app_inv_tail (txt " issues to create for Phase 9.")).
    symmetry. exact E.
  - exact Hr.
  - exact Hp.
Defined.

(** C10.  Whatever is recognized as a heading, after a line break, also
    ends a body, but not the other way round.  In the section
    [#### 1. A / foo / #### 12 / bar] the line [#### 12] ends the body
    of the entry at the line break before it and is not recognized as a
    heading, so that [findall] gives the one entry (1, A, foo) and the
    text [#### 12] is in none of its number, title and body. *)
Theorem lookahead_more_permissive :
  (forall s,
     match_here issue_pattern s <> None ->
     rmatch (Ahead lookahead) (newline :: s) [] accept <> None)
  /\ rmatch (Ahead lookahead)
       (newline :: txt "#### 12" ++ newline :: txt "bar") [] accept <> None
  /\ match_here issue_pattern (txt "#### 12" ++ newline :: txt "bar") = None
  /\ findall issue_pattern (block (txt "1", txt "A", cut_between)) =
     [ (txt "1", txt "A", txt "foo") ]
  /\ ~ occurs (txt "#### 12") (txt "1")
  /\ ~ occurs (txt "#### 12") (txt "A")
  /\ ~ occurs (txt "#### 12") (txt "foo").
Proof.
  split.
  { intros s H. apply heading_iff_match, heading_boundary in H.
    intros E. apply ahead_none in E. exact (E H). }
  split; [vm_compute; discriminate|].
  split; [vm_compute; reflexivity|].
  split; [vm_compute; reflexivity|].
  repeat split; apply find_absent; reflexivity.
Qed.

(** ** The matcher on sample texts *)

Example heading_without_body :
  findall issue_pattern (txt "#### 1. A" ++ [newline]) = [].
Proof. vm_compute. reflexivity. Qed.

Example body_of_one_line_break :
  findall issue_pattern (txt "#### 1. A" ++ [newline; newline]) =
  [ (txt "1", txt "A", [newline]) ].
Proof. vm_compute. reflexivity. Qed.

Example final_line_break_left_out :
  findall issue_pattern
    (txt "#### 1. A" ++ newline :: txt "foo" ++ [newline; newline]) =
  [ (txt "1", txt "A", txt "foo" ++ [newline]) ].
Proof. vm_compute. reflexivity. Qed.

Example title_after_empty_first_line :
  findall issue_pattern
    (txt "#### 1. " ++ newline :: txt "foo" ++ newline :: txt "bar") =
  [ (txt "1", newline :: txt "foo", txt "bar") ].
Proof. vm_compute. reflexivity. Qed.

Example blank_body_then_heading :
  findall issue_pattern
    (txt "#### 1. A" ++ [newline; newline; newline]
     ++ txt "#### 2. B" ++ newline :: txt "y" ++ [newline]) =
  [ (txt "1", txt "A", [newline]); (txt "2", txt "B", txt "y") ].
Proof. vm_compute. reflexivity. Qed.

Example entries_of_sample_document :
  entries sample_document = sample_entries.
Proof. vm_compute. reflexivity. Qed.

Example run_of_sample_document :
  printed (events (run sample_urlopen sample_read_number None
                     sample_document 0)) =
  [ txt "Found 3 issues to create for Phase 9.";
    txt "Created issue #1: 1. First Task";
    txt "Failed to create issue 2. Second Task: timed out";
    txt "Created issue #3: 3. Third Task" ].
Proof. vm_compute. reflexivity. Qed.

(** ** The entries of a text, position by position *)

Lemma search_none_inv r s :
  search r s = None -> forall a b, s = a ++ b -> match_here r b = None.
Proof.
  induction s as [|c s IH]; rewrite search_eq; intros H a b E.
  - destruct a; [|discriminate E]. simpl in E. subst b.
    destruct (match_here r []); [discriminate H|reflexivity].
  - destruct (match_here r (c :: s)) eqn:Em; [discriminate H|].
    destruct a as [|c' a].
    + simpl in E. now subst b.
    + simpl in E. injection E as _ E. now apply (IH H a b).
Qed.

(** The match that [search] returns is the leftmost one. *)
Lemma search_leftmost r s x :
  search r s = Some x ->
  exists a b, s = a ++ b /\ match_here r b = Some x /\
    forall a1 a2, a = a1 ++ a2 -> a2 <> [] ->
                  match_here r (a2 ++ b) = None.
Proof.
  induction s as [|c s IH]; rewrite search_eq.
  - destruct (match_here r []) eqn:E; [|discriminate].
    intros H. injection H as <-. exists [], []. repeat split; try easy.
    intros a1 a2 E1 H2. destruct a1; destruct a2; try discriminate E1.
    congruence.
  - destruct (match_here r (c :: s)) eqn:E.
    + intros H. injection H as <-. exists [], (c :: s).
      repeat split; try easy.
      intros a1 a2 E1 H2. destruct a1; destruct a2; try discriminate E1.
      congruence.
    + intros H. destruct (IH H) as (a & b & -> & Hb & Hmin).
      exists (c :: a), b. repeat split; try easy.
      intros a1 a2 E1 H2. destruct a1 as [|c1 a1].
      * simpl in E1. subst a2. exact E.
      * simpl in E1. injection E1 as _ E1. now apply (Hmin a1 a2).
Qed.

Lemma parses_findall s es :
  parses s es -> findall issue_pattern s = es.
Proof.
  induction 1 as [s H|pre s num title body rest es Hpre Hf _ IH].
  - now apply findall_no_heading.
  - rewrite (@findall_step pre s num title body rest Hpre Hf).
    now rewrite IH.
Qed.

Lemma findall_parses s : parses s (findall issue_pattern s).
Proof.
  remember (length s) as n eqn:En. revert s En.
  induction n as [n IH] using lt_wf_ind. intros s ->.
  destruct (search issue_pattern s) as [[rest g]|] eqn:E.
  - rewrite (findall_issue_cons _ E).
    pose proof (issue_search_shorter _ E) as Hlt.
    apply search_leftmost in E. destruct E as (a & b & -> & Hm & Hmin).
    apply match_issue_iff in Hm.
    destruct Hm as (num & title & body & Hf & ->).
    change (group 1 [(3, body); (2, title); (1, num)]) with num.
    change (group 2 [(3, body); (2, title); (1, num)]) with title.
    change (group 3 [(3, body); (2, title); (1, num)]) with body.
    apply (@parses_entry a b num title body rest); [|exact Hf|].
    + intros a1 a2 E1 H2 Hh. apply heading_iff_match in Hh.
      apply Hh. now apply (Hmin a1 a2).
    + apply (IH (length rest) Hlt rest eq_refl).
  - rewrite (@findall_nil issue_pattern s E). apply parses_done.
    intros a b Es Hh. apply heading_iff_match in Hh. apply Hh.
    now apply (@search_none_inv issue_pattern s E a b).
Qed.

Lemma shortest_no_inner body rest :
  shortest_body body rest -> no_inner_boundary body.
Proof.
  intros (_ & _ & Hmin) b1 d b2 H1 Hd ->.
  apply (Hmin b1 (newline :: txt "#### " ++ d :: b2) eq_refl H1).
  - discriminate.
  - left. exists d, (b2 ++ rest). split; [exact Hd|reflexivity].
Qed.

Lemma issue_form_parsed s num title body rest :
  issue_form s num title body rest -> entry_parsed (num, title, body).
Proof.
  intros (_ & Hn & Ht & Hsb). split; [exact Hn|]. split; [exact Ht|].
  split; [exact (proj1 Hsb)|]. exact (shortest_no_inner Hsb).
Qed.

Lemma issue_form_length s num title body rest :
  issue_form s num title body rest -> 11 + length rest <= length s.
Proof.
  intros (-> & [Hn _] & (c & t & -> & _) & (Hb & _)).
  destruct num; [congruence|]. destruct body; [congruence|].
  repeat (rewrite ?length_app; simpl). lia.
Qed.

Lemma parses_parsed s es : parses s es -> Forall entry_parsed es.
Proof.
  induction 1 as [s H|pre s num title body rest es Hpre Hf _ IH].
  - constructor.
  - constructor; [exact (issue_form_parsed Hf)|exact IH].
Qed.

Lemma parses_length s es : parses s es -> 11 * length es <= length s.
Proof.
  induction 1 as [s H|pre s num title body rest es Hpre Hf _ IH].
  - simpl. lia.
  - apply issue_form_length in Hf. rewrite length_app. simpl length. lia.
Qed.

(** Blocks of parsed entries, with a line break after the last. *)
Lemma findall_blocks_parsed es : forall pre,
  (forall a b, pre = a ++ b -> b <> [] ->
               ~ heading_at (b ++ blocks es ++ [newline])) ->
  Forall entry_parsed es ->
  findall issue_pattern (pre ++ blocks es ++ [newline]) = es.
Proof.
  induction es as [|[[num title] body] es IH]; intros pre Hpre Hok.
  - apply findall_nil. rewrite search_skip; [reflexivity|].
    intros a b E Hb. apply no_heading_no_match. now apply (Hpre a b).
  - pose proof (Forall_inv Hok) as (Hn & Ht & Hb & Hin).
    pose proof (Forall_inv_tail Hok) as Hok'.
    assert (Hform : forall r, shortest_body body r ->
              issue_form (block (num, title, body) ++ r) num title body r).
    { intros r Hsb. unfold issue_form. pieces.
      unfold block. rewrite <- !app_assoc. reflexivity. }
    destruct es as [|[[num' title'] body'] es].
    + change (blocks [(num, title, body)]) with (block (num, title, body))
        in *.
      rewrite (@findall_step pre _ num title body [newline] Hpre).
      * reflexivity.
      * apply Hform. now apply body_before_newline.
    + set (es' := (num', title', body') :: es) in *.
      assert (Eb : blocks ((num, title, body) :: es') ++ [newline] =
                   block (num, title, body)
                   ++ [newline] ++ blocks es' ++ [newline]).
      { change (blocks ((num, title, body) :: es'))
          with (block (num, title, body) ++ newline :: blocks es').
        rewrite <- app_assoc. reflexivity. }
      rewrite Eb in *.
      rewrite (@findall_step pre _ num title body
                 ([newline] ++ blocks es' ++ [newline]) Hpre).
      * f_equal. apply IH; [|exact Hok'].
        intros a b E Hne. destruct a as [|c a].
        { simpl in E. subst b. apply newline_not_heading. }
        { destruct a; destruct b; try discriminate E. congruence. }
      * apply Hform.
        pose proof (Forall_inv Hok') as (Hn' & _).
        subst es'.
        destruct (blocks_head num' title' body' es [newline]) as [r Es].
        change ([newline] ++ blocks ((num', title', body') :: es)
                ++ [newline])
          with (newline :: (blocks ((num', title', body') :: es)
                            ++ [newline])).
        rewrite Es. now apply body_before_heading.
Qed.

(** ** Further properties of the parsing *)

(** X1.  Every entry that [findall] returns has a number made of one or
    more digits, a non-empty title with no line break after its first
    character, and a non-empty body in which, after its first character,
    no line break is followed by [#### ] and a digit. *)
Theorem entries_well_formed s :
  Forall entry_parsed (findall issue_pattern s).
Proof. apply (parses_parsed (findall_parses s)). Qed.

(** X2.  [findall] gives exactly the entries that the text has position
    by position: the leftmost recognized heading with its shortest body,
    then the entries of the text after that body. *)
Theorem findall_iff_parses s es :
  findall issue_pattern s = es <-> parses s es.
Proof.
  split.
  - intros <-. apply findall_parses.
  - apply parses_findall.
Qed.

(** X3.  Writing the entries of a text as blocks, one per line and with
    a line break at the end, and parsing that text gives the same
    entries again. *)
Theorem reparse_blocks s :
  findall issue_pattern (blocks (findall issue_pattern s) ++ [newline]) =
  findall issue_pattern s.
Proof.
  apply (@findall_blocks_parsed (findall issue_pattern s) []).
  - intros a b E Hb. destruct a; destruct b; try discriminate E.
    congruence.
  - apply (parses_parsed (findall_parses s)).
Qed.

(** X4.  A match takes at least eleven characters, and matches do not
    overlap: a text has at most a eleventh of its length in entries. *)
Theorem entries_bounded s :
  11 * length (findall issue_pattern s) <= length s.
Proof. apply (parses_length (findall_parses s)). Qed.

(** ** The text around the marker *)

Lemma findall_skip pre s :
  (forall a b, pre = a ++ b -> b <> [] ->
               match_here issue_pattern (b ++ s) = None) ->
  findall issue_pattern (pre ++ s) = findall issue_pattern s.
Proof.
  intros H. pose proof (@search_skip issue_pattern pre s H) as E.
  destruct (search issue_pattern s) as [[rest g]|] eqn:Es.
  - rewrite (findall_issue_cons _ E), (findall_issue_cons _ Es).
    reflexivity.
  - rewrite (@findall_nil issue_pattern (pre ++ s) E).
    rewrite (@findall_nil issue_pattern s Es). reflexivity.
Qed.

(** No heading begins inside the marker, whatever follows it. *)
Lemma marker_quiet post a b :
  marker = a ++ b -> b <> [] ->
  match_here issue_pattern (b ++ post) = None.
Proof.
  intros E Hb. apply no_heading_no_match.
  intros (num & title & c & rest & _ & _ & Eh).
  unfold marker in E. cbn in E.
  repeat (destruct a as [|? a];
          [ simpl in E; subst b; cbn in Eh; discriminate Eh
          | simpl in E; injection E as _ E ]).
  destruct a; destruct b; try discriminate E. congruence.
Qed.

Lemma app_same_length (A : Type) (a b x y : list A) :
  length a = length b -> a ++ x = b ++ y -> a = b /\ x = y.
Proof.
  revert b. induction a as [|u a IH]; intros [|v b] Hl E;
    try discriminate Hl.
  - now split.
  - simpl in E. injection E as -> E. simpl in Hl.
    destruct (IH b) as [-> ->]; [lia|exact E|]. now split.
Qed.

Lemma find_least s sub n :
  find s sub = Z.of_nat n ->
  forall pre post, s = pre ++ sub ++ post -> n <= length pre.
Proof.
  unfold find. intros E pre post Es.
  destruct (find_from_spec sub s 0) as [(p0 & q0 & _ & Hf & Hmin)|[Hf _]].
  - apply Hmin in Es. lia.
  - lia.
Qed.

(** X5.  The text before the first occurrence of the marker is not
    parsed, and all the text after the marker is, to the end of the
    document: the entries of the document are those of the text after
    the marker. *)
Theorem entries_after_first_marker pre post :
  (forall pre' post', pre ++ marker ++ post = pre' ++ marker ++ post' ->
                      length pre <= length pre') ->
  phase9_section (pre ++ marker ++ post) = Some (marker ++ post)
  /\ entries (pre ++ marker ++ post) = findall issue_pattern post.
Proof.
  intros Hfirst.
  destruct (@phase9_section_found (pre ++ marker ++ post))
    as (p0 & q0 & E0 & Hmin & Hs); [now exists pre, post|].
  assert (Hl : length pre = length p0).
  { pose proof (Hfirst p0 q0 E0). pose proof (Hmin pre post eq_refl). lia. }
  destruct (@app_same_length _ pre p0 _ _ Hl E0) as [<- E1].
  apply app_inv_head in E1. subst q0.
  split; [exact Hs|]. unfold entries. rewrite Hs.
  apply findall_skip. intros a b. apply marker_quiet.
Qed.

Lemma entries_after_first_marker_witness :
  phase9_section (early_prefix ++ marker ++ early_suffix) =
    Some (marker ++ early_suffix)
  /\ entries (early_prefix ++ marker ++ early_suffix) =
     findall issue_pattern early_suffix.
Proof.
  apply entries_after_first_marker.
  intros pre' post' E.
  apply (@find_least (early_prefix ++ marker ++ early_suffix) marker
           (length early_prefix) eq_refl pre' post' E).
Defined.

(** ** Further properties of the submissions *)

Section Submissions.

Variable World : Type.
Variable urlopen : World -> request -> World * http_result.
Variable read_number : text -> text + text.
Variable TOKEN : option text.

Lemma created_not_failed number title e :
  created_line number title <> failed_line title e.
Proof. discriminate. Qed.

(** One call of [create_issue], whatever [urlopen] gives. *)
Lemma create_issue_run title body (st : state World) :
  create_issue urlopen read_number TOKEN title body st =
  (issue_number read_number
     (snd (urlopen (world st) (issue_request TOKEN title body))),
   {| world := fst (urlopen (world st) (issue_request TOKEN title body));
      events :=
        events st
        ++ [ Urlopen (issue_request TOKEN title body);
             Print (outcome_line read_number title
                      (snd (urlopen (world st)
                              (issue_request TOKEN title body)))) ] |}).
Proof.
  unfold create_issue, bind, call_urlopen.
  destruct (urlopen (world st) (issue_request TOKEN title body)) as [w r].
  simpl fst. simpl snd.
  destruct r as [e|e|content];
    [| |destruct (read_number content) as [e|number] eqn:Er];
    simpl; rewrite ?Er; unfold ret; rewrite <- app_assoc; reflexivity.
Qed.

(** X6.  One call of [create_issue] sends one request and then prints
    one line, whatever [urlopen] gives.  It returns the number of the
    response when the response could be read, and [None] after every
    failure.  A response whose number is [None] gives the line of a
    created issue and [None] as well, so that the value returned does
    not tell a failure from it. *)
Theorem create_issue_outcome title body (st : state World) :
  let q := issue_request TOKEN title body in
  let r := snd (urlopen (world st) q) in
  create_issue urlopen read_number TOKEN title body st =
    (issue_number read_number r,
     {| world := fst (urlopen (world st) q);
        events := events st
                  ++ [Urlopen q; Print (outcome_line read_number title r)] |})
  /\ ((exists e, outcome_line read_number title r = failed_line title e) ->
      issue_number read_number r = txt "None")
  /\ (forall number,
        outcome_line read_number title r = created_line number title ->
        issue_number read_number r = number)
  /\ (forall content,
        r = Response content ->
        read_number content = inr (txt "None") ->
        outcome_line read_number title r =
          created_line (txt "None") title
        /\ issue_number read_number r = txt "None").
Proof.
  cbv zeta. split; [apply create_issue_run|].
  generalize (snd (urlopen (world st) (issue_request TOKEN title body))).
  intros r. split; [|split].
  - intros [e H]. destruct r as [e'|e'|content]; try reflexivity.
    simpl in *. destruct (read_number content) as [e'|number];
      [reflexivity|]. now apply created_not_failed in H.
  - intros number H. destruct r as [e'|e'|content]; simpl in *;
      try (symmetry in H; now apply created_not_failed in H).
    destruct (read_number content) as [e'|number'].
    + symmetry in H. now apply created_not_failed in H.
    + unfold created_line in H. cbn in H.
      repeat (injection H as H). apply app_inv_tail in H. now symmetry.
  - intros content -> Er. simpl. rewrite Er. now split.
Qed.

Lemma submit_all_world matches : forall st : state World,
  world (snd (submit_all urlopen read_number TOKEN matches st)) =
  fold_left (fun w q => fst (urlopen w q))
            (map (request_of TOKEN) matches) (world st).
Proof.
  induction matches as [|[[num title] body] matches IH]; intros st.
  - reflexivity.
  - simpl submit_all. unfold bind at 1.
    rewrite create_issue_run, IH. reflexivity.
Qed.

(** X7.  The requests of a run are chained: each one is made in the
    world that the request before it has left, and the run ends in the
    world that the last request leaves, whether the requests failed or
    not; a run without entries leaves the world as it was. *)
Theorem worlds_are_chained content (w : World) :
  world (run urlopen read_number TOKEN content w) =
  fold_left (fun w q => fst (urlopen w q))
            (map (request_of TOKEN) (entries content)) w
  /\ (entries content = [] ->
      world (run urlopen read_number TOKEN content w) = w).
Proof.
  assert (E : world (run urlopen read_number TOKEN content w) =
              fold_left (fun w q => fst (urlopen w q))
                        (map (request_of TOKEN) (entries content)) w).
  { unfold run, entries. rewrite main_eq.
    destruct (phase9_section content) as [sec|]; [|reflexivity].
    cbv zeta. unfold bind at 1. unfold print at 1.
    rewrite submit_all_world. reflexivity. }
  split; [exact E|]. intros H. rewrite E, H. reflexivity.
Qed.

(** X8.  Every request of a run goes to the issues address of the one
    repository and carries the same three headers, whatever the entry
    and whatever happened to the requests before it; the token is not
    looked at before it is sent, and an unset token is sent as
    [token None]. *)
Theorem requests_are_uniform content (w : World) :
  Forall (fun q =>
            url q = txt "https://api.github.com/repos/dotandev/hintents/issues"
            /\ headers q =
               [ (txt "Authorization",
                  txt "token " ++ match TOKEN with
                                  | Some t => t
                                  | None => txt "None"
                                  end);
                 (txt "Content-Type", txt "application/json");
                 (txt "Accept", txt "application/vnd.github.v3+json") ])
         (requests (events (run urlopen read_number TOKEN content w)))
  /\ length (requests (events (run urlopen read_number TOKEN content w))) =
     length (entries content).
Proof.
  rewrite run_requests. split; [|apply length_map].
  apply Forall_forall. intros q Hq. apply in_map_iff in Hq.
  destruct Hq as ([[num title] body] & <- & _). split; reflexivity.
Qed.

End Submissions.

(** ** Further properties of strip *)

Lemma lstrip_fixed t :
  (forall c t', t = c :: t' -> isspace c = false) -> lstrip t = t.
Proof.
  intros H. destruct t as [|c t]; [reflexivity|].
  simpl. now rewrite (H c t eq_refl).
Qed.

Lemma rstrip_fixed t :
  (forall c t', t = t' ++ [c] -> isspace c = false) -> rstrip t = t.
Proof.
  intros H. unfold rstrip. rewrite lstrip_fixed.
  - apply rev_involutive.
  - intros c t' E. apply (H c (rev t')).
    rewrite <- (rev_involutive t), E. reflexivity.
Qed.

Lemma lstrip_all_space s : forallb isspace s = true -> lstrip s = [].
Proof.
  induction s as [|c s IH]; simpl; [reflexivity|].
  intros H. apply andb_true_iff in H. destruct H as [Hc Hs].
  rewrite Hc. now apply IH.
Qed.

(** X9.  Stripping a text that has no white space at its ends changes
    nothing, so stripping twice is stripping once; and the result is
    empty exactly when the text is made of white space only, in which
    case an empty title or body is what is submitted. *)
Theorem strip_fixed_points s :
  ((forall c t, s = c :: t -> isspace c = false) ->
   (forall c t, s = t ++ [c] -> isspace c = false) -> strip s = s)
  /\ strip (strip s) = strip s
  /\ (strip s = [] <-> forallb isspace s = true).
Proof.
  assert (Hfix : forall u,
            (forall c t, u = c :: t -> isspace c = false) ->
            (forall c t, u = t ++ [c] -> isspace c = false) ->
            strip u = u).
  { intros u H1 H2. unfold strip.
    rewrite (lstrip_fixed H1). now apply rstrip_fixed. }
  split; [apply Hfix|]. split.
  - destruct (strip_trimmed s) as (_ & H1 & H2). now apply Hfix.
  - split.
    + intros E. destruct (strip_trimmed s) as ((l & r & Es & Hl & Hr) & _).
      rewrite E in Es. rewrite Es. simpl.
      rewrite forallb_app, Hl, Hr. reflexivity.
    + intros H. unfold strip. now rewrite (lstrip_all_space s H).
Qed.

(** ** The index that find gives *)

(** X10.  [find] gives -1 or an index at which the marker lies wholly
    inside the document; so past the test for -1 the slice of [main] is
    taken at an index that is not negative, and it begins with the
    marker. *)
Theorem find_in_range content :
  find content marker = (-1)%Z
  \/ ((0 <= find content marker)%Z
      /\ (find content marker + Z.of_nat (length marker)
          <= Z.of_nat (length content))%Z
      /\ startswith marker (slice_from content (find content marker)) = true).
Proof.
  unfold find.
  destruct (find_from_spec marker content 0)
    as [(pre & post & -> & Hf & _)|[Hf _]]; [right|now left].
  rewrite Hf, Z.add_0_l. split; [lia|]. split.
  - rewrite !length_app. lia.
  - rewrite slice_from_length. apply startswith_app.
Qed.
